(** * NanoParticleTools: label processing, dopant-pair graphs, augmentation

    A shallow embedding of

    - [EnergyLabelProcessor.process_doc]          (models/_data.py),
    - [GraphFeatureProcessor.get_data_graph]      (models/subdivision_invariance/dopant_pair.py),
    - [UCNPAugmenter.generate_single_augment]     (models/_data.py),

    together with the properties of these functions.

    Conventions.  Python floats are embedded as exact rationals [Q]; the
    concrete spectra used below only involve dyadic values, on which the
    floating-point operations of the source are exact.  Python exceptions
    are values of [exn]; a function that may raise returns [exn + A]. *)

From Stdlib Require Import QArith Qround Ascii.
From stdpp Require Import gmap strings list.

Local Open Scope Z_scope.

(** ** Exceptions and the error monad *)

Inductive exn : Type :=
  | IndexError
  | KeyError
  | ValueError
  | OverflowError
  | RuntimeError (msg : string).

Definition res (A : Type) : Type := exn + A.

Definition raise {A} (e : exn) : res A := inl e.
Definition ok {A} (a : A) : res A := inr a.

Definition rbind {A B} (m : res A) (k : A → res B) : res B :=
  match m with
  | inl e => inl e
  | inr a => k a
  end.

Notation "'let*' x ':=' m 'in' k" := (rbind m (fun x => k))
  (at level 10, x pattern, m at level 100, k at level 200).

(** ** Python sequences *)

Module Py.

(** [l[i]] for a Python list or a 1-D tensor: negative indices count
    from the end, anything outside [-len, len) raises [IndexError]. *)
Definition index {A} (l : list A) (i : Z) : res A :=
  let n := Z.of_nat (length l) in
  let j := if i <? 0 then i + n else i in
  if (j <? 0) || (n <=? j) then raise IndexError
  else match l !! Z.to_nat j with
       | Some a => ok a
       | None => raise IndexError
       end.

(** The start of the slices [l[i:]] and [l[:i]], clamped as Python does. *)
Definition slice_bound {A} (l : list A) (i : Z) : nat :=
  let n := Z.of_nat (length l) in
  Z.to_nat (Z.min n (if i <? 0 then Z.max 0 (i + n) else i)).

Definition slice_from {A} (l : list A) (i : Z) : list A :=
  drop (slice_bound l i) l.

Definition slice_to {A} (l : list A) (i : Z) : list A :=
  take (slice_bound l i) l.

(** [int(q)]: truncation towards zero. *)
Definition int (q : Q) : Z := Z.quot (Qnum q) (Zpos (Qden q)).

End Py.

(** ** Tensors of rationals (1-D) *)

Module Torch.

Definition sum (t : list Q) : Q := fold_left Qplus t 0%Q.

(** [a * b] on 1-D tensors, with broadcasting of a one-element operand. *)
Definition mul (a b : list Q) : res (list Q) :=
  if (length a =? length b)%nat then ok (zip_with Qmult a b)
  else match a, b with
       | [v], _ => ok (map (Qmult v) b)
       | _, [v] => ok (map (fun u => Qmult u v) a)
       | _, _ => raise (RuntimeError "The size of tensor a must match the size of tensor b")
       end.

(** [t.expand(k, -1).moveaxis(0, 1)] flattened in row-major order:
    every entry repeated [k] times in place. *)
Definition expand_moveaxis (k : nat) (t : list Q) : list Q :=
  flat_map (fun v => replicate k v) t.

Fixpoint chunks (rows size : nat) (t : list Q) : list (list Q) :=
  match rows with
  | O => []
  | S rows' => take size t :: chunks rows' size (drop size t)
  end.

(** [t.reshape(m, -1)] of a flat tensor. *)
Definition reshape_rows (m : nat) (t : list Q) : res (list (list Q)) :=
  if (m =? 0)%nat then
    raise (RuntimeError "cannot reshape tensor into shape [0, -1]")
  else if negb (length t mod m =? 0)%nat then
    raise (RuntimeError "shape is invalid for input size")
  else ok (chunks m (length t / m) t).

(** [torch.linspace(lo, hi, steps)] *)
Definition linspace (lo hi : Q) (steps : nat) : list Q :=
  match steps with
  | 1%nat => [lo]
  | _ => map (fun i : nat =>
                (lo + inject_Z (Z.of_nat i)
                      * ((hi - lo) / inject_Z (Z.of_nat (steps - 1))))%Q)
             (seq 0 steps)
  end.

Definition eqb (a b : list Q) : bool :=
  (length a =? length b)%nat && forallb (fun p => Qeq_bool p.1 p.2) (zip a b).

End Torch.

(** ** EnergyLabelProcessor *)

(** The value [log10(v)], kept symbolic: the logarithm is not rational. *)
Inductive log10_value : Type := Log10 (arg : Q).

Record document : Type := Document {
  energy_spectrum_x : list Q;
  energy_spectrum_y : list Q
}.

Record labels : Type := Labels {
  spectra_x : list Q;
  y : list Q;
  log_y : list log10_value;
  log_const : Q;
  idx_zero : Z;
  n_absorbed : Q;
  n_emitted : Q;
  e_absorbed : Q;
  e_emitted : Q
}.

Definition cannot_rebin : string :=
  "Spectrum in document is different than desired resolution and cannot be rebinned. Please rebuild the collection".

Section EnergyLabelProcessor.

(** [scipy.ndimage.gaussian_filter1d], an external numerical routine. *)
Variable gaussian_filter1d : list Q → Q → list Q.

(** The attributes set by [__init__]. *)
Variable spectrum_range : Q * Q.
Variable output_size : nat.
Variable log_constant : Q.
Variable gaussian_filter : Q.

(** [step = x[1] - x[0]] *)
Definition get_step (x : list Q) : res Q :=
  let* x1 := Py.index x 1 in
  let* x0 := Py.index x 0 in
  ok (x1 - x0)%Q.

(** Lines 105-126: bring the spectrum to [output_size] bins. *)
Definition rebin (x spectrum : list Q) (step : Q) : res (list Q * list Q) :=
  let n := length x in
  if negb (n =? output_size)%nat then
    if (output_size <=? n)%nat then
      let multiplier := (Nat.lcm n output_size / n)%nat in
      let* rows :=
        Torch.reshape_rows output_size (Torch.expand_moveaxis multiplier spectrum) in
      let _spectrum :=
        map (fun row => (Torch.sum row * inject_Z (Z.of_nat n)
                         / inject_Z (Z.of_nat (multiplier * output_size)))%Q) rows in
      let* x0 := Py.index x 0 in
      let* xlast := Py.index x (-1) in
      let lower_bound := (x0 - step / 2)%Q in
      let upper_bound := (xlast + step / 2)%Q in
      let _x := Torch.linspace lower_bound upper_bound output_size in
      ok (_x, _spectrum)
    else raise (RuntimeError cannot_rebin)
  else ok (x, spectrum).

(** Line 136: [int(np.floor(0 - self.spectrum_range[0]) / step)].  The
    floor is taken of the numerator alone; [int] truncates the quotient.
    A zero step makes the quotient infinite or undefined and [int]
    raises. *)
Definition get_idx_zero (step : Q) : res Z :=
  let numerator := inject_Z (Qfloor (0 - spectrum_range.1)) in
  if Qeq_bool step 0 then
    if Qeq_bool numerator 0 then raise ValueError else raise OverflowError
  else ok (Py.int (numerator / step)).

Definition process_doc (doc : document) : res labels :=
  let x := energy_spectrum_x doc in
  let spectrum := energy_spectrum_y doc in
  let* step := get_step x in
  let* (x, spectrum) := rebin x spectrum step in
  let y := spectrum in
  let y := if Qlt_le_dec 0 gaussian_filter
           then gaussian_filter1d y gaussian_filter else y in
  let* idx_zero := get_idx_zero step in
  let n_photons_absorbed := Torch.sum (Py.slice_from spectrum idx_zero) in
  let n_photons_emitted := Torch.sum (Py.slice_to spectrum idx_zero) in
  let* total_energy := Torch.mul spectrum x in
  let e_absorbed := Torch.sum (Py.slice_from total_energy idx_zero) in
  let e_emitted := Torch.sum (Py.slice_to total_energy idx_zero) in
  ok {| spectra_x := x;
        y := y;
        log_y := map (fun v => Log10 (v + log_constant)) y;
        log_const := log_constant;
        idx_zero := idx_zero;
        n_absorbed := n_photons_absorbed;
        n_emitted := n_photons_emitted;
        e_absorbed := e_absorbed;
        e_emitted := e_emitted |}.

End EnergyLabelProcessor.

(** ** GraphFeatureProcessor *)

Record SphericalConstraint : Type := { radius : Q }.

(** A dopant specification [(shell_index, concentration, element, site)]. *)
Definition dopant_tail : Type := Q * string * string.
Definition dopant_specification : Type := Z * dopant_tail.

Definition spec_shell (d : dopant_specification) : Z := d.1.
Definition spec_x (d : dopant_specification) : Q := d.2.1.1.
Definition spec_el (d : dopant_specification) : string := d.2.1.2.

(** [DataProcessor.get_radii] *)
Definition get_radii (idx : Z) (constraints : list SphericalConstraint) : res (Q * Q) :=
  let* r_inner :=
    (if idx =? 0 then ok 0%Q
     else let* c := Py.index constraints (idx - 1) in ok (radius c)) in
  let* c := Py.index constraints idx in
  ok (r_inner, radius c).

Fixpoint mapM {A B} (f : A → res B) (l : list A) : res (list B) :=
  match l with
  | [] => ok []
  | a :: l' =>
      let* b := f a in
      let* bs := mapM f l' in
      ok (b :: bs)
  end.

Definition enumerate {A} (l : list A) : list (nat * A) := zip (seq 0 (length l)) l.

(** Tensors as far as the graph builder needs them: a 1-D tensor, or a
    2-D tensor with two columns. *)
Inductive tensor (A : Type) : Type :=
  | T1 (data : list A)
  | T2 (rows : list (A * A)).
Arguments T1 {A} data.
Arguments T2 {A} rows.

Module Tensor.

(** [torch.tensor(rows)] for a Python list of two-element lists: the
    empty list gives a 1-D tensor of shape (0,). *)
Definition of_rows {A} (rows : list (A * A)) : tensor A :=
  match rows with
  | [] => T1 []
  | _ => T2 rows
  end.

(** [t.size(0)] *)
Definition size0 {A} (t : tensor A) : nat :=
  match t with
  | T1 d => length d
  | T2 r => length r
  end.

Definition arange (n : nat) : list nat := seq 0 n.

(** [torch.cartesian_prod(a, b)], one row per pair. *)
Definition cartesian_prod (a b : list nat) : list (nat * nat) :=
  flat_map (fun p => map (fun q => (p, q)) b) a.

Definition lookups {A} (l : list A) (idx : list nat) : res (list A) :=
  mapM (fun i => match l !! i with
                 | Some a => ok a
                 | None => raise IndexError
                 end) idx.

(** [t[idx]] for an index tensor [idx]. *)
Definition index_select {A} (t : tensor A) (idx : list nat) : res (tensor A) :=
  match t with
  | T1 d => let* d' := lookups d idx in ok (T1 d')
  | T2 r => let* r' := lookups r idx in ok (T2 r')
  end.

(** [t.flip(1)]: dimension 1 must exist. *)
Definition flip1 {A} (t : tensor A) : res (tensor A) :=
  match t with
  | T1 _ => raise IndexError
  | T2 r => ok (T2 (map (fun ab => (ab.2, ab.1)) r))
  end.

(** Elementwise binary operation on tensors of one shape. *)
Definition map2 {A B C} (f : A → B → C) (s : tensor A) (t : tensor B) : res (tensor C) :=
  match s, t with
  | T1 a, T1 b =>
      if (length a =? length b)%nat then ok (T1 (zip_with f a b))
      else raise (RuntimeError "The size of tensor a must match the size of tensor b")
  | T2 a, T2 b =>
      if (length a =? length b)%nat
      then ok (T2 (zip_with (fun u v => (f u.1 v.1, f u.2 v.2)) a b))
      else raise (RuntimeError "The size of tensor a must match the size of tensor b")
  | _, _ => raise (RuntimeError "The size of tensor a must match the size of tensor b")
  end.

(** [t[:, c]] for [c] in {0, 1}. *)
Definition column {A} (c : bool) (t : tensor A) : res (list A) :=
  match t with
  | T1 _ => raise IndexError
  | T2 r => ok (map (fun ab => if c then ab.2 else ab.1) r)
  end.

(** [v[mask]] for a boolean mask of the same length. *)
Definition masked {A} (v : list A) (mask : list bool) : list A :=
  map fst (filter (fun vb => vb.2 = true) (zip v mask)).

End Tensor.

Fixpoint combinations_with_replacement2 {A} (l : list A) : list (A * A) :=
  match l with
  | [] => []
  | a :: t => map (pair a) (a :: t) ++ combinations_with_replacement2 t
  end.

(** The body of one [try: m[a][b] = i / except: m[a] = {b: i}]. *)
Definition set_pair (m : gmap string (gmap string nat)) (a b : string) (i : nat)
  : gmap string (gmap string nat) :=
  match m !! a with
  | Some inner => <[a := <[b := i]> inner]> m
  | None => <[a := {[b := i]}]> m
  end.

Record node_features : Type := NodeFeatures {
  x_dopant : list Q;
  types : list nat;
  radii_dopant : list (Q * Q);
  node_dopant_index : tensor nat
}.

Record data_graph : Type := DataGraph {
  nodes : node_features;
  edge_index : list nat * list nat
}.

(** The directed edges stored column-wise in [edge_index]. *)
Definition edges (g : data_graph) : list (nat * nat) :=
  zip (edge_index g).1 (edge_index g).2.

Definition num_nodes (g : data_graph) : nat := length (types (nodes g)).

Section GraphFeatureProcessor.

Variable possible_elements : list string.

Definition edge_type_map : gmap string (gmap string nat) :=
  fold_left
    (fun m entry =>
       let '(i, (el1, el2)) := entry in
       set_pair (set_pair m el1 el2 i) el2 el1 i)
    (enumerate (combinations_with_replacement2 possible_elements)) ∅.

(** [self.edge_type_map[el_i][el_j]] *)
Definition edge_type (el_i el_j : string) : res nat :=
  match edge_type_map !! el_i with
  | None => raise KeyError
  | Some inner =>
      match inner !! el_j with
      | None => raise KeyError
      | Some t => ok t
      end
  end.

Definition get_node_features (constraints : list SphericalConstraint)
    (dopant_specifications : list dopant_specification) : res node_features :=
  let* per_i :=
    mapM (fun entry_i : nat * dopant_specification =>
            let '(i, (constraint_i, (x_i, el_i, _))) := entry_i in
            let* r_i := get_radii constraint_i constraints in
            mapM (fun entry_j : nat * dopant_specification =>
                    let '(j, (constraint_j, (x_j, el_j, _))) := entry_j in
                    let* r_j := get_radii constraint_j constraints in
                    let* ty := edge_type el_i el_j in
                    ok (ty, (x_i, x_j), (r_i, r_j), (i, j)))
                 (enumerate dopant_specifications))
         (enumerate dopant_specifications) in
  let appended := concat per_i in
  let types := map (fun nd => nd.1.1.1) appended in
  let node_dopant_ids := map snd appended in
  let* radii_dopant :=
    mapM (fun d => get_radii (spec_shell d) constraints) dopant_specifications in
  ok {| x_dopant := map spec_x dopant_specifications;
        types := types;
        radii_dopant := radii_dopant;
        node_dopant_index := Tensor.of_rows node_dopant_ids |}.

Definition get_edge_features (num_nodes : nat) (node_dopant_ids : tensor nat)
  : res (list nat * list nat) :=
  let x := Tensor.arange num_nodes in
  let prod := Tensor.cartesian_prod x x in
  let i := map fst prod in
  let j := map snd prod in
  let* ids_i := Tensor.index_select node_dopant_ids i in
  let* ids_j := Tensor.index_select node_dopant_ids j in
  let* edge_shared_bool := Tensor.map2 Nat.eqb ids_i ids_j in
  let* ids_j_flip := Tensor.flip1 ids_j in
  let* edge_shared_bool_flip := Tensor.map2 Nat.eqb ids_i ids_j_flip in
  let* edge_share_bool := Tensor.map2 orb edge_shared_bool edge_shared_bool_flip in
  let* col0 := Tensor.column false edge_share_bool in
  let* col1 := Tensor.column true edge_share_bool in
  let edge_share_bool := zip_with orb col0 col1 in
  ok (Tensor.masked i edge_share_bool, Tensor.masked j edge_share_bool).

Definition get_data_graph (constraints : list SphericalConstraint)
    (dopant_specifications : list dopant_specification) : res data_graph :=
  let* output_dict := get_node_features constraints dopant_specifications in
  let* edge_index :=
    get_edge_features (length (types output_dict))
                      (node_dopant_index output_dict) in
  ok {| nodes := output_dict; edge_index := edge_index |}.

End GraphFeatureProcessor.

Definition default_elements : list string := ["Yb"; "Er"; "Nd"]%string.

Definition scenario_B_constraints : list SphericalConstraint :=
  [ {| radius := 5 |}; {| radius := 10 |} ].
Definition scenario_B_dopants : list dopant_specification :=
  [ (0, ((1 # 2)%Q, "Yb", "Y")); (1, ((1 # 10)%Q, "Er", "Y")) ]%string.


(** ** UCNPAugmenter *)

(** *** The random generator

    [numpy.random.Generator] is embedded as the sequence of raw draws it
    is going to produce: [tape] lists them, [pos] counts the draws made.
    Every outcome of the generator is the outcome of some tape. *)

Record rng_state : Type := Rng { tape : nat → nat; pos : nat }.

Module Random.

Definition next (g : rng_state) : nat * rng_state :=
  (tape g (pos g), {| tape := tape g; pos := S (pos g) |}).

(** [rng.integers(low, high)]: uniform on [low, high). *)
Definition integers (low high : nat) (g : rng_state) : res (nat * rng_state) :=
  if (low <? high)%nat then
    let '(r, g) := next g in
    ok ((low + r mod (high - low))%nat, g)
  else raise ValueError.

Fixpoint draw {A} (size : nat) (pool : list A) (g : rng_state) : list A * rng_state :=
  match size with
  | O => ([], g)
  | S size' =>
      let '(r, g) := next g in
      let k := (r mod length pool)%nat in
      match pool !! k with
      | None => ([], g)
      | Some a =>
          let '(rest, g) := draw size' (delete k pool) g in
          (a :: rest, g)
      end
  end.

(** [rng.choice(a, size, replace=False)] *)
Definition choice {A} (a : list A) (size : nat) (g : rng_state)
  : res (list A * rng_state) :=
  if (length a <? size)%nat then raise ValueError
  else ok (draw size a g).

End Random.

Module Np.

(** [np.arange(start, stop, step)] for a positive [step]. *)
Definition arange (start stop step : Q) : list Q :=
  let len := Z.to_nat (Qceiling ((stop - start) / step)) in
  map (fun i : nat => (start + inject_Z (Z.of_nat i) * step)%Q) (seq 0 len).

(** Rounding to the nearest integer, ties to even. *)
Definition rint (q : Q) : Z :=
  let f := Qfloor q in
  match (q - inject_Z f ?= 1 # 2)%Q with
  | Lt => f
  | Gt => f + 1
  | Eq => if Z.even f then f else f + 1
  end.

(** [np.round(q, 1)] *)
Definition round1 (q : Q) : Q := (inject_Z (rint (q * 10)) / 10)%Q.

End Np.

Fixpoint insert_sorted {A} (leb : A → A → bool) (a : A) (l : list A) : list A :=
  match l with
  | [] => [a]
  | b :: l' => if leb a b then a :: l else b :: insert_sorted leb a l'
  end.

(** [sorted(l)] *)
Definition sorted {A} (leb : A → A → bool) (l : list A) : list A :=
  foldr (insert_sorted leb) [] l.

(** The dictionary [dopant_specification_by_layer]. *)
Definition group_by_layer (n_constraints : nat)
    (dopant_specifications : list dopant_specification)
  : gmap Z (list dopant_tail) :=
  let init : gmap Z (list dopant_tail) :=
    list_to_map (map (fun i : nat => (Z.of_nat i, [])) (seq 0 n_constraints)) in
  fold_left
    (fun (m : gmap Z (list dopant_tail)) (_tuple : dopant_specification) =>
       match m !! _tuple.1 with
       | Some specs => <[_tuple.1 := specs ++ [_tuple.2]]> m
       | None => <[_tuple.1 := [_tuple.2]]> m
       end)
    dopant_specifications init.

(** The variables updated by the loop over the constraints. *)
Record augment_state : Type := AugmentState {
  new_constraints : list SphericalConstraint;
  new_dopant_specification : list dopant_specification;
  constraint_counter : nat
}.

Section UCNPAugmenter.

Variable constraints : list SphericalConstraint.
Variable dopant_specification_by_layer : gmap Z (list dopant_tail).

(** Lines 646-654: the loop over the sampled radii of shell [i]. *)
Definition add_subdivision (i : nat) (st : augment_state) (r : Q) : augment_state :=
  let cs := new_constraints st ++ [ {| radius := Np.round1 r |} ] in
  match dopant_specification_by_layer !! Z.of_nat i with
  | Some specs =>
      {| new_constraints := cs;
         new_dopant_specification :=
           new_dopant_specification st
           ++ map (fun spec => (Z.of_nat (constraint_counter st), spec)) specs;
         constraint_counter := S (constraint_counter st) |}
  | None =>
      {| new_constraints := cs;
         new_dopant_specification := new_dopant_specification st;
         constraint_counter := S (constraint_counter st) |}
  end.

(** Lines 638-660: one iteration of the loop over the constraints. *)
Definition augment_step (constraints_to_subdivide : list nat)
    (max_subdivisions : nat) (subdivision_increment : Q)
    (i : nat) (st : augment_state) (g : rng_state)
  : res (augment_state * rng_state) :=
  let* (st, g) :=
    (if bool_decide (i ∈ constraints_to_subdivide) then
       let* min_radius :=
         (if (i =? 0)%nat then ok 0%Q
          else let* c := Py.index constraints (Z.of_nat i - 1) in ok (radius c)) in
       let* c := Py.index constraints (Z.of_nat i) in
       let max_radius := radius c in
       let* (n_divisions, g) := Random.integers 1 max_subdivisions g in
       let* (picked, g) :=
         Random.choice (Np.arange min_radius max_radius subdivision_increment)
                       n_divisions g in
       let radii := sorted Qle_bool picked in
       ok (fold_left (add_subdivision i) radii st, g)
     else ok (st, g)) in
  let* c := Py.index constraints (Z.of_nat i) in
  match dopant_specification_by_layer !! Z.of_nat i with
  | None => raise KeyError
  | Some specs =>
      ok ({| new_constraints := new_constraints st ++ [c];
             new_dopant_specification :=
               new_dopant_specification st
               ++ map (fun spec => (Z.of_nat (constraint_counter st), spec)) specs;
             constraint_counter := S (constraint_counter st) |}, g)
  end.

Fixpoint augment_loop (constraints_to_subdivide : list nat)
    (max_subdivisions : nat) (subdivision_increment : Q)
    (range : list nat) (st : augment_state) (g : rng_state)
  : res (augment_state * rng_state) :=
  match range with
  | [] => ok (st, g)
  | i :: range' =>
      let* (st, g) :=
        augment_step constraints_to_subdivide max_subdivisions
                     subdivision_increment i st g in
      augment_loop constraints_to_subdivide max_subdivisions
                   subdivision_increment range' st g
  end.

End UCNPAugmenter.

Definition generate_single_augment (g : rng_state)
    (constraints : list SphericalConstraint)
    (dopant_specifications : list dopant_specification)
    (max_subdivisions : nat) (subdivision_increment : Q)
  : res (list SphericalConstraint * list dopant_specification * rng_state) :=
  let n_constraints := length constraints in
  let max_subdivisions := 3%nat in
  let subdivision_increment := (1 # 10)%Q in
  let dopant_specification_by_layer :=
    group_by_layer n_constraints dopant_specifications in
  let* (n_constraints_to_divide, g) :=
    Random.integers 1 (n_constraints + 1) g in
  let* (picked, g) :=
    Random.choice (seq 0 n_constraints) n_constraints_to_divide g in
  let constraints_to_subdivide := sorted Nat.leb picked in
  let* (st, g) :=
    augment_loop constraints dopant_specification_by_layer
                 constraints_to_subdivide max_subdivisions subdivision_increment
                 (seq 0 n_constraints)
                 {| new_constraints := [];
                    new_dopant_specification := [];
                    constraint_counter := 0 |} g in
  ok (new_constraints st, new_dopant_specification st, g).

(** Tapes for the examples. *)
Definition tape_of (l : list nat) : rng_state :=
  {| tape := fun k => default 0%nat (l !! k); pos := 0 |}.

Definition scenario_C_constraints : list SphericalConstraint :=
  [ {| radius := 5 |}; {| radius := 10 |} ].
Definition scenario_C_dopants : list dopant_specification :=
  [ (0, ((1 # 2)%Q, "Yb", "Y")); (1, ((1 # 10)%Q, "Er", "Y")) ]%string.

(** What lines 122-126 compute for one pair of rows [i, j] and [k, l] of
    [node_dopant_ids]: column 0 is [i == k or i == l], column 1 is
    [j == l or j == k], and the mask is their disjunction. *)
Definition shares (a b : nat * nat) : bool :=
  ((a.1 =? b.1)%nat || (a.1 =? b.2)%nat) || ((a.2 =? b.2)%nat || (a.2 =? b.1)%nat).

(** The lookup [m[a][b]] succeeds. *)
Definition has_type (m : gmap string (gmap string nat)) (a b : string) : Prop :=
  ∃ inner t, m !! a = Some inner ∧ inner !! b = Some t.

(** The dopant specifications the data model allows for the constraints
    [cs] and the elements [els]. *)
Definition valid_specification (els : list string) (cs : list SphericalConstraint)
    (d : dopant_specification) : Prop :=
  0 ≤ spec_shell d < Z.of_nat (length cs) ∧ spec_el d ∈ els.

(** The dopant tails [(x, el, site)] assigned to shell [p], in list order. *)
Definition specs_at (p : nat) (l : list dopant_specification) : list dopant_tail :=
  map snd (filter (fun d : dopant_specification => d.1 = Z.of_nat p) l).

(** The shell list rebuilt from the new sub-shells [subs] of every shell:
    the sub-shells of a shell come first, the shell itself after them. *)
Definition rebuilt_constraints (subs : list (list SphericalConstraint))
    (cs : list SphericalConstraint) : list SphericalConstraint :=
  concat (zip_with (fun news c => news ++ [c]) subs cs).

(** The dopants [layer i] of shell [i], put on each of the [len] positions
    from [start] on. *)
Definition at_positions (layer : nat → list dopant_tail) (i start len : nat)
  : list dopant_specification :=
  flat_map (fun p : nat => map (fun tl => (Z.of_nat p, tl)) (layer i)) (seq start len).

(** The dopant specifications after the split: shell [i], split by
    [d] new sub-shells, occupies the [d + 1] positions from [start] on, and
    its dopants [layer i] are repeated at each of them. *)
Fixpoint replicated (layer : nat → list dopant_tail) (divs : list nat) (i start : nat)
  : list dopant_specification :=
  match divs with
  | [] => []
  | d :: divs' =>
      at_positions layer i start (S d)
      ++ replicated layer divs' (S i) (start + S d)
  end.

(** Sample inputs for the label processor. *)

(** A three-point moving average, used as a sample smoothing routine. *)
Definition moving_average (t : list Q) (sigma : Q) : list Q :=
  map (fun i : nat =>
         let at_ (j : nat) := default 0%Q (t !! j) in
         ((at_ (pred i) + at_ i + at_ (S i)) / 3)%Q)
      (seq 0 (length t)).

Definition scenario_A : document :=
  {| energy_spectrum_x := [-2; -1; 0; 1]%Q; energy_spectrum_y := [1; 2; 3; 4]%Q |}.

Definition half_step_document : document :=
  {| energy_spectrum_x := [-5 # 2; -2; -3 # 2; -1]%Q;
     energy_spectrum_y := [1; 2; 3; 4]%Q |}.

Definition single_point_document : document :=
  {| energy_spectrum_x := [1]%Q; energy_spectrum_y := [1]%Q |}.

Definition ten_bin_document : document :=
  {| energy_spectrum_x := map (fun i : nat => inject_Z (Z.of_nat i)) (seq 0 10);
     energy_spectrum_y := replicate 10 1%Q |}.

(** [m.get(a, {}).get(b)]: the entry of the element-pair table, if any. *)
Definition lookup2 (m : gmap string (gmap string nat)) (a b : string) : option nat :=
  match m !! a with
  | Some inner => inner !! b
  | None => None
  end.

(** One iteration of the loop that fills [edge_type_map]. *)
Definition set_pair_step (m : gmap string (gmap string nat))
    (entry : nat * (string * string)) : gmap string (gmap string nat) :=
  let '(i, (el1, el2)) := entry in
  set_pair (set_pair m el1 el2 i) el2 el1 i.

(** Dopant lists that the graph builder rejects. *)
Definition unknown_element_dopants : list dopant_specification :=
  [ (0, ((1 # 2)%Q, "Yb", "Y")); (1, ((1 # 10)%Q, "Tm", "Y")) ]%string.

Definition missing_shell_dopants : list dopant_specification :=
  [ (0, ((1 # 2)%Q, "Yb", "Y")); (2, ((1 # 10)%Q, "Er", "Y")) ]%string.

(** [UCNPAugmenter.augment_template]: [n_augments] calls of
    [generate_single_augment] with its default arguments, on one generator. *)
Fixpoint augment_template (g : rng_state) (constraints : list SphericalConstraint)
    (dopant_specifications : list dopant_specification) (n_augments : nat)
  : res (list (list SphericalConstraint * list dopant_specification) * rng_state) :=
  match n_augments with
  | O => ok ([], g)
  | S n =>
      let* (new_constraints, new_dopant_specification, g) :=
        generate_single_augment g constraints dopant_specifications 3 (1 # 10) in
      let* (new_templates, g) :=
        augment_template g constraints dopant_specifications n in
      ok ((new_constraints, new_dopant_specification) :: new_templates, g)
  end.

(** The inner bound of shell [i]: [0 if i == 0 else constraints[i-1].radius]. *)
Definition inner_bound (cs : list SphericalConstraint) (i : nat) : Q :=
  match i with
  | O => 0%Q
  | S j => match cs !! j with Some c => radius c | None => 0%Q end
  end.

(** The new sub-shells [news] that one iteration of the loop can put before
    shell [i]: none if the shell is not selected, else the rounded values of
    one or two distinct grid points, sorted. *)
Definition sub_shells_of (cs : list SphericalConstraint) (sel : list nat)
    (ms : nat) (inc : Q) (i : nat) (news : list SphericalConstraint) : Prop :=
  if decide (i ∈ sel) then
    ∃ picked c,
      cs !! i = Some c
      ∧ (1 ≤ length picked ≤ ms - 1)%nat
      ∧ picked ⊆+ Np.arange (inner_bound cs i) (radius c) inc
      ∧ news = map (fun r => {| radius := Np.round1 r |}) (sorted Qle_bool picked)
  else news = [].

(** Every shell is more than one increment (0.1) thick. *)
Definition thick_shells (cs : list SphericalConstraint) : Prop :=
  ∀ i c, cs !! i = Some c → (1 # 10 < radius c - inner_bound cs i)%Q.

(** ** DataProcessor.get_item_from_doc *)

(** A document: a value, or a dictionary of documents. *)
Inductive pyobj (A : Type) : Type :=
  | PyLeaf (a : A)
  | PyDict (entries : gmap string (pyobj A)).
Arguments PyLeaf {A} a.
Arguments PyDict {A} entries.

Inductive doc_exn : Type :=
  | DocKeyError (key : string)
  | DocTypeError.

(** [field.split('.')] *)
Fixpoint split_dot (s : string) : list string :=
  match s with
  | EmptyString => [EmptyString]
  | String a s' =>
      if Ascii.eqb a "."%char then EmptyString :: split_dot s'
      else match split_dot s' with
           | w :: ws => String a w :: ws
           | [] => [String a EmptyString]
           end
  end.

(** The loop [for key in keys: val = val[key]]. *)
Fixpoint walk_keys {A} (val : pyobj A) (keys : list string) : doc_exn + pyobj A :=
  match keys with
  | [] => inr val
  | key :: keys' =>
      match val with
      | PyDict entries =>
          match entries !! key with
          | Some v => walk_keys v keys'
          | None => inl (DocKeyError key)
          end
      | PyLeaf _ => inl DocTypeError
      end
  end.

Definition get_item_from_doc {A} (doc : pyobj A) (field : string) : doc_exn + pyobj A :=
  walk_keys doc (split_dot field).

Fixpoint has_dot (s : string) : bool :=
  match s with
  | EmptyString => false
  | String a s' => Ascii.eqb a "."%char || has_dot s'
  end.

Definition spectrum_document : pyobj (list Q) :=
  PyDict {[ "output" := PyDict {[ "energy_spectrum_x" := PyLeaf [-2; -1; 0; 1]%Q;
                                  "energy_spectrum_y" := PyLeaf [1; 2; 3; 4]%Q ]} ]}.

(** ** NPMCDataset: data points and their cache *)

(** [l[i] = a] for a Python list. *)
Definition setitem {A} (l : list A) (i : Z) (a : A) : res (list A) :=
  let n := Z.of_nat (length l) in
  let j := if i <? 0 then i + n else i in
  if (j <? 0) || (n <=? j) then raise IndexError
  else ok (<[Z.to_nat j := a]> l).

(** The position that the index [i] has in a list of length [n]. *)
Definition position (n : nat) (i : Z) : option nat :=
  let j := if i <? 0 then i + Z.of_nat n else i in
  if (j <? 0) || (Z.of_nat n <=? j) then None else Some (Z.to_nat j).

(** What building a data point may raise: an exception of a list access or
    of a processor, or one of reading the document. *)
Inductive item_exn : Type :=
  | Raised (e : exn)
  | RaisedDoc (e : doc_exn).

(** The attributes of a [Data] object. *)
Notation data A := (gmap string (pyobj A)) (only parsing).

(** A cached item is [None] or a data point. *)
Record dataset_cache (A : Type) : Type := {
  cached_data : list bool;
  item_cache : list (option (data A))
}.
Arguments cached_data {A} _.
Arguments item_cache {A} _.

Section NPMCDataset.

Context {A : Type}.
Variable feature_process_doc : pyobj A → item_exn + data A.
Variable label_process_doc : pyobj A → item_exn + data A.
Variable docs : list (pyobj A).

Definition process_single_doc (idx : Z) : item_exn + data A :=
  match Py.index docs idx with
  | inl e => inl (Raised e)
  | inr doc =>
      match feature_process_doc doc with
      | inl e => inl e
      | inr _d =>
          match label_process_doc doc with
          | inl e => inl e
          | inr labels =>
              let _d := labels ∪ _d in
              match walk_keys doc ["input"; "constraints"] with
              | inl e => inl (RaisedDoc e)
              | inr constraints =>
                  let _d := <["constraints" := constraints]> _d in
                  match walk_keys doc ["input"; "dopant_specifications"] with
                  | inl e => inl (RaisedDoc e)
                  | inr dopant_specifications =>
                      inr (<["dopant_specifications" := dopant_specifications]> _d)
                  end
              end
          end
      end
  end.

(** The cache as [__init__] leaves it. *)
Definition new_cache : dataset_cache A :=
  {| cached_data := map (fun _ => false) docs;
     item_cache := map (fun _ => None) docs |}.

(** [__getitem__]: the value returned or the exception raised, and the
    cache afterwards. *)
Definition getitem (use_cache : bool) (st : dataset_cache A) (idx : Z)
    : (item_exn + option (data A)) * dataset_cache A :=
  if use_cache then
    match Py.index (cached_data st) idx with
    | inl e => (inl (Raised e), st)
    | inr true =>
        match Py.index (item_cache st) idx with
        | inl e => (inl (Raised e), st)
        | inr d => (inr d, st)
        end
    | inr false =>
        match process_single_doc idx with
        | inl e => (inl e, st)
        | inr d =>
            match setitem (cached_data st) idx true with
            | inl e => (inl (Raised e), st)
            | inr cached =>
                let st1 := {| cached_data := cached; item_cache := item_cache st |} in
                match setitem (item_cache st) idx (Some d) with
                | inl e => (inl (Raised e), st1)
                | inr items => (inr (Some d), {| cached_data := cached; item_cache := items |})
                end
            end
        end
    end
  else
    match process_single_doc idx with
    | inl e => (inl e, st)
    | inr d => (inr (Some d), st)
    end.

(** The caches a dataset can be in: the new one, and the one left by a call
    of [__getitem__] on a dataset that uses its cache. *)
Inductive reachable : dataset_cache A → Prop :=
  | reachable_new : reachable new_cache
  | reachable_getitem (st : dataset_cache A) (idx : Z) :
      reachable st → reachable (getitem true st idx).2.

(** The marked items of a cache are the data points of their documents. *)
Definition cache_consistent (st : dataset_cache A) : Prop :=
  length (cached_data st) = length docs
  ∧ length (item_cache st) = length docs
  ∧ ∀ j, cached_data st !! j = Some true →
      ∃ d, item_cache st !! j = Some (Some d)
           ∧ process_single_doc (Z.of_nat j) = inr d.

End NPMCDataset.

(** A label processor that reads the spectrum of the document, and a
    feature processor that reads nothing. *)
Definition spectrum_labels (doc : pyobj (list Q)) : item_exn + data (list Q) :=
  match get_item_from_doc doc "output.energy_spectrum_y" with
  | inl e => inl (RaisedDoc e)
  | inr y => inr {[ "y" := y ]}
  end.

Definition no_features (doc : pyobj (list Q)) : item_exn + data (list Q) := inr ∅.

Definition input_document (y : list Q) : pyobj (list Q) :=
  PyDict {[ "input" := PyDict {[ "constraints" := PyLeaf [10%Q];
                                 "dopant_specifications" := PyLeaf [(1 # 2)%Q] ]};
            "output" := PyDict {[ "energy_spectrum_y" := PyLeaf y ]} ]}.

Definition three_documents : list (pyobj (list Q)) :=
  [input_document [1%Q]; spectrum_document; input_document [2%Q; 3%Q]].

(** * Properties *)

(** ** Tensors and rationals *)

Lemma Torch_eqb_spec (a b : list Q) :
  Torch.eqb a b = true ↔ Forall2 Qeq a b.
Proof.
  unfold Torch.eqb. revert b.
  induction a as [|u a IH]; intros [|v b]; simpl; split; intros H;
    try done; try constructor; try (by inversion H).
  - apply andb_true_iff in H as [Hl H]. apply andb_true_iff in H as [Huv H].
    by apply Qeq_bool_iff.
  - apply andb_true_iff in H as [Hl H]. apply andb_true_iff in H as [Huv H].
    apply IH. by rewrite Hl, H.
  - inversion H as [|? ? ? ? Huv Hab]; subst.
    apply IH in Hab. apply andb_true_iff in Hab as [Hl Hz].
    rewrite Hl. simpl. apply andb_true_iff. split; [|done].
    by apply Qeq_bool_iff.
Qed.

Lemma Torch_eqb_false (a b : list Q) :
  Torch.eqb a b = false → ¬ Forall2 Qeq a b.
Proof. intros H F. apply Torch_eqb_spec in F. congruence. Qed.

(** ** Python indexing *)

Lemma Py_index_nat {A} (l : list A) (i : nat) (a : A) :
  l !! i = Some a → Py.index l (Z.of_nat i) = inr a.
Proof.
  intros H. pose proof (lookup_lt_Some _ _ _ H) as Hlt.
  unfold Py.index.
  destruct (Z.ltb_spec (Z.of_nat i) 0); [lia|].
  destruct (Z.ltb_spec (Z.of_nat i) 0); [lia|].
  destruct (Z.leb_spec (Z.of_nat (length l)) (Z.of_nat i)); [lia|].
  simpl. by rewrite Nat2Z.id, H.
Qed.

Lemma Py_index_inv {A} (l : list A) (i : Z) (a : A) :
  Py.index l i = inr a →
  ∃ k : nat, l !! k = Some a
             ∧ Z.of_nat k = (if i <? 0 then i + Z.of_nat (length l) else i).
Proof.
  unfold Py.index.
  set (j := if i <? 0 then i + Z.of_nat (length l) else i).
  destruct (Z.ltb_spec j 0); [done|].
  destruct (Z.leb_spec (Z.of_nat (length l)) j); [done|]. simpl.
  destruct (l !! Z.to_nat j) as [b|] eqn:E; [|done].
  intros [= ->]. exists (Z.to_nat j). split; [done|lia].
Qed.

(** ** The label processor *)

Section LabelProperties.

Variable gaussian_filter1d : list Q → Q → list Q.
Variable spectrum_range : Q * Q.
Variable log_constant : Q.

Lemma get_step_two (x : list Q) :
  (2 ≤ length x)%nat → ∃ step, get_step x = inr step.
Proof.
  destruct x as [|x0 [|x1 x]]; simpl; try lia. intros _.
  unfold get_step.
  pose proof (Py_index_nat (x0 :: x1 :: x) 1 x1 eq_refl) as H1.
  pose proof (Py_index_nat (x0 :: x1 :: x) 0 x0 eq_refl) as H0.
  change (Z.of_nat 1) with 1 in H1. change (Z.of_nat 0) with 0 in H0.
  rewrite H1, H0. by eexists.
Qed.

Lemma get_step_short (x : list Q) :
  (length x < 2)%nat → get_step x = inl IndexError.
Proof. destruct x as [|x0 [|x1 x]]; simpl; [done|done|lia]. Qed.

Lemma rebin_upsampling (m : nat) (x spectrum : list Q) (step : Q) :
  (length x < m)%nat → rebin m x spectrum step = inl (RuntimeError cannot_rebin).
Proof.
  intros H. unfold rebin.
  destruct (Nat.eqb_spec (length x) m) as [E|_]; [lia|]. simpl.
  destruct (Nat.leb_spec m (length x)); [lia|done].
Qed.

(** C1 (as amended).  Rebinning the spectrum x = [-2,-1,0,1],
    y = [1,2,3,4] to 2 bins returns two intensity values and the new x
    axis [-2.5, 1.5]: the two evenly spaced points from x[0] - step/2 to
    x[-1] + step/2, whose distance is the domain width 4.  The values of
    the two intensities are not part of the statement. *)
Theorem rebin_scenario_A :
  ∃ r, process_doc gaussian_filter1d spectrum_range 2 log_constant 0 scenario_A = inr r
       ∧ length (y r) = 2%nat
       ∧ Forall2 Qeq (spectra_x r) [-5 # 2; 3 # 2]%Q
       ∧ (∃ lo hi, spectra_x r = [lo; hi]
                   ∧ (lo == -2 - 1 / 2)%Q ∧ (hi == 1 + 1 / 2)%Q ∧ (hi - lo == 4)%Q).
Proof.
  unfold process_doc.
  assert (Hs : get_step (energy_spectrum_x scenario_A) = inr 1%Q) by reflexivity.
  rewrite Hs. cbn [rbind].
  assert (Hr : rebin 2 (energy_spectrum_x scenario_A) (energy_spectrum_y scenario_A) 1
               = inr ([-20 # 8; 12 # 8]%Q, [12 # 2; 28 # 2]%Q)) by reflexivity.
  rewrite Hr. cbn [rbind].
  assert (Hi : ∃ z, get_idx_zero spectrum_range 1 = inr z).
  { unfold get_idx_zero. change (Qeq_bool 1 0) with false. by eexists. }
  destruct Hi as [z ->]. cbn [rbind].
  assert (Hm : Torch.mul [12 # 2; 28 # 2]%Q [-20 # 8; 12 # 8]%Q
               = inr [(12 # 2) * (-20 # 8); (28 # 2) * (12 # 8)]%Q) by reflexivity.
  rewrite Hm. cbn [rbind].
  eexists. split; [reflexivity|]. cbn [y spectra_x].
  change (if Qlt_le_dec 0 0 then gaussian_filter1d [12 # 2; 28 # 2]%Q 0 else [12 # 2; 28 # 2]%Q)
    with [12 # 2; 28 # 2]%Q.
  split; [reflexivity|].
  split; [by apply Torch_eqb_spec|].
  eexists _, _. split; [reflexivity|]. by repeat split.
Qed.

(** C5 (as amended).  For every spectrum with at least two points whose
    length n is smaller than the target bin count m, processing raises
    the [RuntimeError] of line 126: the spectrum is not upsampled. *)
Theorem upsampling_rejected (m : nat) (sigma : Q) (doc : document) :
  (2 ≤ length (energy_spectrum_x doc) < m)%nat →
  process_doc gaussian_filter1d spectrum_range m log_constant sigma doc
  = inl (RuntimeError cannot_rebin).
Proof.
  intros [H2 Hm]. unfold process_doc.
  destruct (get_step_two _ H2) as [step ->]. cbn [rbind].
  by rewrite rebin_upsampling.
Qed.

(** C7.  Whatever the smoothing width, the photon counts returned by
    [process_doc] are the sums of the two slices, at the split index, of
    the rebinned intensity before smoothing; the smoothed intensity is
    only what is returned as [y] (and logged). *)
Theorem photon_counts_unsmoothed (m : nat) (sigma : Q) (doc : document) (r : labels) :
  process_doc gaussian_filter1d spectrum_range m log_constant sigma doc = inr r →
  ∃ step x spectrum,
    get_step (energy_spectrum_x doc) = inr step
    ∧ rebin m (energy_spectrum_x doc) (energy_spectrum_y doc) step = inr (x, spectrum)
    ∧ get_idx_zero spectrum_range step = inr (idx_zero r)
    ∧ n_absorbed r = Torch.sum (Py.slice_from spectrum (idx_zero r))
    ∧ n_emitted r = Torch.sum (Py.slice_to spectrum (idx_zero r))
    ∧ y r = (if Qlt_le_dec 0 sigma then gaussian_filter1d spectrum sigma else spectrum).
Proof.
  unfold process_doc. intros H.
  destruct (get_step (energy_spectrum_x doc)) as [e|step] eqn:Hstep;
    cbn [rbind] in H; [done|].
  destruct (rebin m _ _ step) as [e|[x spectrum]] eqn:Hrebin;
    cbn [rbind] in H; [done|].
  destruct (get_idx_zero spectrum_range step) as [e|z] eqn:Hidx;
    cbn [rbind] in H; [done|].
  destruct (Torch.mul spectrum x) as [e|te];
    cbn [rbind] in H; [done|].
  injection H as <-.
  exists step, x, spectrum. done.
Qed.

End LabelProperties.

(** The split index of line 136 is the floor of the quotient whenever the
    lower bound of the range is a non-positive integer and the step is
    positive, as for the default range (-1000, 0). *)
Lemma Py_int_floor (q : Q) : 0 ≤ Qnum q → Py.int q = Qfloor q.
Proof.
  destruct q as [n d]. simpl. intros H. unfold Py.int. simpl.
  apply Z.quot_div_nonneg; lia.
Qed.

Lemma idx_zero_integral_range (k : Z) (hi step : Q) :
  k ≤ 0 → (0 < step)%Q →
  get_idx_zero (inject_Z k, hi) step = inr (Qfloor ((0 - inject_Z k) / step)).
Proof.
  intros Hk Hstep. unfold get_idx_zero. cbn [fst].
  assert (Hne : Qeq_bool step 0 = false).
  { destruct (Qeq_bool step 0) eqn:E; [|done].
    apply Qeq_bool_iff in E. rewrite E in Hstep. by apply Qlt_irrefl in Hstep. }
  rewrite Hne.
  assert (Hfl : Qfloor (0 - inject_Z k) = (- k)%Z).
  { rewrite <- (Qfloor_Z (- k)). apply Qfloor_comp.
    unfold Qeq, inject_Z; simpl. lia. }
  rewrite Hfl. f_equal. rewrite Py_int_floor.
  - apply Qfloor_comp. apply Qmult_comp; [|reflexivity].
    unfold Qeq, inject_Z; simpl. lia.
  - destruct step as [[|n|n] d]; unfold Qlt in Hstep; simpl in *; try lia.
Qed.

(** C3.  The code takes the floor of the numerator alone and truncates the
    quotient: for the range (-2.5, 0) and the step 0.5 the split index is
    int(floor(2.5) / 0.5) = 4, whereas floor((0 - (-2.5)) / 0.5) = 5. *)
Theorem idx_zero_floors_numerator_only :
  ∃ r, process_doc moving_average (-5 # 2, 0)%Q 4 (1 # 1000) 0 half_step_document = inr r
       ∧ get_step (energy_spectrum_x half_step_document) = inr (1 # 2)%Q
       ∧ idx_zero r = 4
       ∧ Qfloor ((0 - (-5 # 2)) / (1 # 2)) = 5.
Proof. eexists. split; [vm_compute; reflexivity|]. by vm_compute. Qed.

Lemma rebin_scenario_A_not_as_claimed :
  ∃ r, process_doc moving_average (-1000, 0)%Q 2 (1 # 1000) 0 scenario_A = inr r
       ∧ ¬ Forall2 Qeq (y r) [3; 7]%Q
       ∧ ¬ Forall2 Qeq (spectra_x r) [-3 # 2; 1 # 2]%Q.
Proof.
  eexists. split; [vm_compute; reflexivity|].
  split; by apply Torch_eqb_false.
Qed.

Lemma upsampling_single_point_index_error :
  (length (energy_spectrum_x single_point_document) < 2)%nat
  ∧ process_doc moving_average (-1000, 0)%Q 2 (1 # 1000) 0 single_point_document
    = inl IndexError
  ∧ process_doc moving_average (-1000, 0)%Q 2 (1 # 1000) 0 single_point_document
    ≠ inl (RuntimeError cannot_rebin).
Proof. split; [simpl; lia|]. split; [reflexivity|discriminate]. Qed.

Lemma upsampling_rejected_witness :
  process_doc moving_average (-1000, 0)%Q 20 (1 # 1000) 0 ten_bin_document
  = inl (RuntimeError cannot_rebin).
Proof.
  apply (upsampling_rejected moving_average (-1000, 0)%Q (1 # 1000) 20 0 ten_bin_document).
  simpl. lia.
Defined.

Lemma photon_counts_unsmoothed_witness :
  ∃ r, process_doc moving_average (-1, 0)%Q 2 (1 # 1000) 1 scenario_A = inr r
       ∧ ¬ Forall2 Qeq (y r) [6; 14]%Q
       ∧ (n_emitted r == 6)%Q ∧ (n_absorbed r == 14)%Q
       ∧ ∃ step x spectrum,
           get_step (energy_spectrum_x scenario_A) = inr step
           ∧ rebin 2 (energy_spectrum_x scenario_A) (energy_spectrum_y scenario_A) step
             = inr (x, spectrum)
           ∧ get_idx_zero (-1, 0)%Q step = inr (idx_zero r)
           ∧ n_absorbed r = Torch.sum (Py.slice_from spectrum (idx_zero r))
           ∧ n_emitted r = Torch.sum (Py.slice_to spectrum (idx_zero r))
           ∧ y r = (if Qlt_le_dec 0 1 then moving_average spectrum 1 else spectrum).
Proof.
  eexists. split; [vm_compute; reflexivity|].
  split; [by apply Torch_eqb_false|].
  split; [reflexivity|]. split; [reflexivity|].
  apply (photon_counts_unsmoothed moving_average (-1, 0)%Q (1 # 1000) 2 1 scenario_A).
  reflexivity.
Defined.

(** ** Monadic map *)

Lemma mapM_inr {A B} (f : A → res B) (l : list A) (bs : list B) :
  mapM f l = inr bs → Forall2 (fun a b => f a = inr b) l bs.
Proof.
  revert bs. induction l as [|a l IH]; simpl; intros bs H.
  - injection H as <-. constructor.
  - destruct (f a) as [e|b] eqn:Ha; cbn [rbind] in H; [done|].
    destruct (mapM f l) as [e|bs'] eqn:Hl; cbn [rbind] in H; [done|].
    injection H as <-. constructor; [done|]. by apply IH.
Qed.

Lemma mapM_total {A B} (f : A → res B) (l : list A) :
  (∀ a, a ∈ l → ∃ b, f a = inr b) → ∃ bs, mapM f l = inr bs.
Proof.
  induction l as [|a l IH]; simpl; intros H.
  - by eexists.
  - destruct (H a) as [b ->]; [by left|]. cbn [rbind].
    destruct IH as [bs ->]; [intros a' Ha'; apply H; by right|].
    by eexists.
Qed.

Lemma mapM_map {A B C} (f : A → res B) (g : B → C) (h : A → C)
    (l : list A) (bs : list B) :
  mapM f l = inr bs →
  (∀ a b, a ∈ l → f a = inr b → g b = h a) →
  map g bs = map h l.
Proof.
  intros H Hgh. apply mapM_inr in H.
  induction H as [|a b l bs Hab _ IH]; simpl; [done|].
  f_equal.
  - apply Hgh; [by left|done].
  - apply IH. intros a' b' Ha'. apply Hgh. by right.
Qed.

Lemma mapM_length {A B} (f : A → res B) (l : list A) (bs : list B) :
  mapM f l = inr bs → length bs = length l.
Proof. intros H. apply mapM_inr in H. symmetry. by eapply Forall2_length. Qed.

(** ** Enumerations and products *)

Lemma enumerate_fst {A} (l : list A) : map fst (enumerate l) = seq 0 (length l).
Proof. unfold enumerate. apply fst_zip. by rewrite length_seq. Qed.

Lemma enumerate_snd {A} (l : list A) : map snd (enumerate l) = l.
Proof. unfold enumerate. apply snd_zip. by rewrite length_seq. Qed.

Lemma enumerate_length {A} (l : list A) : length (enumerate l) = length l.
Proof. rewrite <- (length_map fst), enumerate_fst. apply length_seq. Qed.

Lemma cartesian_prod_elem (a b : list nat) (p q : nat) :
  (p, q) ∈ Tensor.cartesian_prod a b ↔ p ∈ a ∧ q ∈ b.
Proof.
  unfold Tensor.cartesian_prod. rewrite list_elem_of_In, in_flat_map. split.
  - intros (p' & Hp & Hq). apply in_map_iff in Hq as (q' & [= -> ->] & Hq).
    by rewrite !list_elem_of_In.
  - rewrite !list_elem_of_In. intros [Hp Hq]. exists p. split; [done|].
    apply in_map_iff. by exists q.
Qed.

Lemma cartesian_prod_length (a b : list nat) :
  length (Tensor.cartesian_prod a b) = (length a * length b)%nat.
Proof.
  unfold Tensor.cartesian_prod. induction a as [|p a IH]; simpl; [done|].
  by rewrite length_app, length_map, IH.
Qed.

Lemma cartesian_prod_lookup (a b : list nat) (i j p q : nat) :
  a !! i = Some p → b !! j = Some q →
  Tensor.cartesian_prod a b !! (i * length b + j)%nat = Some (p, q).
Proof.
  unfold Tensor.cartesian_prod. revert i.
  induction a as [|p' a IH]; intros i Hp Hq; [done|].
  simpl. destruct i as [|i]; simpl in *.
  - injection Hp as ->. rewrite lookup_app_l.
    + by rewrite list_lookup_fmap, Hq.
    + rewrite length_map. by eapply lookup_lt_Some.
  - rewrite lookup_app_r; rewrite length_map; [|lia].
    replace (length b + i * length b + j - length b)%nat
      with (i * length b + j)%nat by lia.
    by apply IH.
Qed.

(** ** The graph builder: nodes *)

Section NodeProperties.

Variable possible_elements : list string.
Variable constraints : list SphericalConstraint.

Lemma node_rows (specs : list dopant_specification) (i : nat) (x_i : Q) (el_i : string)
    (r_i : Q * Q) (row : list (nat * (Q * Q) * (Q * Q * (Q * Q)) * (nat * nat))) :
  mapM (fun entry_j : nat * dopant_specification =>
          let '(j, (constraint_j, (x_j, el_j, _))) := entry_j in
          let* r_j := get_radii constraint_j constraints in
          let* ty := edge_type possible_elements el_i el_j in
          ok (ty, (x_i, x_j), (r_i, r_j), (i, j)))
       (enumerate specs) = inr row →
  map snd row = map (pair i) (seq 0 (length specs)).
Proof.
  intros H. rewrite <- enumerate_fst, map_map.
  eapply mapM_map; [exact H|].
  intros [j [c [[x_j el_j] site]]] b _ Hb. simpl in *.
  destruct (get_radii c constraints); cbn [rbind] in Hb; [done|].
  destruct (edge_type possible_elements el_i el_j); cbn [rbind] in Hb; [done|].
  by injection Hb as <-.
Qed.

Lemma node_features_inv (specs : list dopant_specification) (nf : node_features) :
  get_node_features possible_elements constraints specs = inr nf →
  node_dopant_index nf
  = Tensor.of_rows (Tensor.cartesian_prod (seq 0 (length specs)) (seq 0 (length specs)))
  ∧ length (types nf) = (length specs * length specs)%nat
  ∧ x_dopant nf = map spec_x specs.
Proof.
  unfold get_node_features. intros H.
  match type of H with
  | rbind (mapM ?F _) _ = _ => destruct (mapM F (enumerate specs)) as [e|per_i] eqn:Hper
  end; cbn [rbind] in H; [done|].
  destruct (mapM _ specs) as [e|radii]; cbn [rbind] in H; [done|].
  injection H as <-. cbn [node_dopant_index types x_dopant].
  assert (Hids : map snd (concat per_i)
                 = Tensor.cartesian_prod (seq 0 (length specs)) (seq 0 (length specs))).
  { unfold Tensor.cartesian_prod. rewrite flat_map_concat_map, concat_map.
    f_equal.
    transitivity (map (fun e : nat * dopant_specification =>
                         map (pair e.1) (seq 0 (length specs))) (enumerate specs));
      [|by rewrite <- (map_map fst (fun p => map (pair p) (seq 0 (length specs)))),
              enumerate_fst].
    eapply mapM_map; [exact Hper|].
    intros [i [c [[x_i el_i] site]]] row _ Hrow. simpl in *.
    destruct (get_radii c constraints) as [e|r_i]; cbn [rbind] in Hrow; [done|].
    by eapply node_rows. }
  rewrite Hids. split; [done|]. split; [|done].
  rewrite length_map, <- (length_map snd), Hids, cartesian_prod_length.
  by rewrite !length_seq.
Qed.

End NodeProperties.

(** ** The graph builder: edges *)

Lemma lookups_total {A} `{Inhabited A} (l : list A) (idx : list nat) :
  Forall (fun i => (i < length l)%nat) idx →
  Tensor.lookups l idx = inr (map (fun i => l !!! i) idx).
Proof.
  unfold Tensor.lookups. induction 1 as [|i idx Hi _ IH]; simpl; [done|].
  destruct (lookup_lt_is_Some_2 l i Hi) as [a Ha].
  rewrite Ha, IH. cbn [rbind]. by rewrite (list_lookup_total_correct _ _ _ Ha).
Qed.

Lemma mask_of_rows (rows : list (nat * nat)) (prod : list (nat * nat)) :
  let A := map (fun i => rows !!! i) (map fst prod) in
  let B := map (fun i => rows !!! i) (map snd prod) in
  let B' := map (fun ab : nat * nat => (ab.2, ab.1)) B in
  let eq2 := zip_with (fun u v : nat * nat => ((u.1 =? v.1)%nat, (u.2 =? v.2)%nat)) in
  let share := zip_with (fun u v : bool * bool => (u.1 || v.1, u.2 || v.2)) (eq2 A B) (eq2 A B') in
  zip_with orb (map (fun ab : bool * bool => ab.1) share) (map (fun ab : bool * bool => ab.2) share)
  = map (fun pq => shares (rows !!! pq.1) (rows !!! pq.2)) prod.
Proof.
  induction prod as [|[p q] prod IH]; simpl in *; [done|].
  f_equal. apply IH.
Qed.

Lemma masked_filter (prod : list (nat * nat)) (f : nat * nat → bool) :
  zip (Tensor.masked (map fst prod) (map f prod))
      (Tensor.masked (map snd prod) (map f prod))
  = filter (fun pq => f pq = true) prod.
Proof.
  unfold Tensor.masked. induction prod as [|[p q] prod IH]; simpl; [done|].
  rewrite !filter_cons. simpl.
  destruct (f (p, q)) eqn:E; simpl.
  - by rewrite IH.
  - exact IH.
Qed.

Lemma edge_features_rows (rows : list (nat * nat)) (ei : list nat * list nat) :
  get_edge_features (length rows) (T2 rows) = inr ei →
  zip ei.1 ei.2
  = filter (fun pq => shares (rows !!! pq.1) (rows !!! pq.2) = true)
           (Tensor.cartesian_prod (seq 0 (length rows)) (seq 0 (length rows))).
Proof.
  unfold get_edge_features, Tensor.arange.
  set (prod := Tensor.cartesian_prod _ _).
  assert (Hprod : Forall (fun pq => (pq.1 < length rows)%nat ∧ (pq.2 < length rows)%nat) prod).
  { apply Forall_forall. intros [p q] Hpq.
    apply cartesian_prod_elem in Hpq as [Hp Hq].
    apply elem_of_seq in Hp, Hq. simpl. lia. }
  unfold Tensor.index_select.
  rewrite !lookups_total.
  2:{ apply Forall_fmap. eapply Forall_impl; [exact Hprod|]. by intros ? [_ ?]. }
  2:{ apply Forall_fmap. eapply Forall_impl; [exact Hprod|]. by intros ? [? _]. }
  repeat (cbn [rbind ok Tensor.map2 Tensor.flip1 Tensor.column];
          rewrite ?length_zip_with, ?length_map, ?Nat.min_id, ?Nat.eqb_refl).
  intros [= <-]. cbn [fst snd].
  rewrite <- masked_filter.
  f_equal; f_equal; exact (mask_of_rows rows prod).
Qed.

Lemma shares_spec (i j k l : nat) :
  shares (i, j) (k, l) = true ↔ i = k ∨ i = l ∨ j = k ∨ j = l.
Proof.
  unfold shares. cbn [fst snd].
  rewrite !orb_true_iff, !Nat.eqb_eq. tauto.
Qed.

Lemma shares_sym (a b : nat * nat) : shares a b = true → shares b a = true.
Proof.
  destruct a as [i j], b as [k l]. rewrite !shares_spec.
  intros [-> | [-> | [-> | ->]]]; auto.
Qed.

Section GraphProperties.

Variable possible_elements : list string.
Variable constraints : list SphericalConstraint.

Lemma data_graph_inv (specs : list dopant_specification) (g : data_graph) :
  get_data_graph possible_elements constraints specs = inr g →
  let n := length specs in
  let rows := Tensor.cartesian_prod (seq 0 n) (seq 0 n) in
  specs ≠ []
  ∧ node_dopant_index (nodes g) = T2 rows
  ∧ num_nodes g = (n * n)%nat
  ∧ edges g
    = filter (fun pq => shares (rows !!! pq.1) (rows !!! pq.2) = true)
             (Tensor.cartesian_prod (seq 0 (n * n)) (seq 0 (n * n))).
Proof.
  intros H n rows. unfold get_data_graph in H.
  destruct (get_node_features possible_elements constraints specs) as [e|nf] eqn:Hnf;
    cbn [rbind] in H; [done|].
  apply node_features_inv in Hnf as (Hids & Hlen & _).
  fold n in Hids, Hlen. fold rows in Hids.
  rewrite Hids, Hlen in H.
  destruct specs as [|d specs]; [done|].
  assert (Hrows : length rows = (n * n)%nat).
  { unfold rows. by rewrite cartesian_prod_length, !length_seq. }
  assert (Hof : Tensor.of_rows rows = T2 rows).
  { destruct rows; [|done]. simpl in *. subst n. simpl in *. lia. }
  rewrite Hof, <- Hrows in H.
  destruct (get_edge_features (length rows) (T2 rows)) as [e|ei] eqn:Hei;
    cbn [rbind] in H; [done|].
  injection H as <-. unfold edges, num_nodes. cbn [nodes edge_index].
  apply edge_features_rows in Hei. rewrite Hei, Hrows, Hof in *.
  by rewrite Hids.
Qed.

Lemma row_major_lookup (n i j : nat) :
  (i < n)%nat → (j < n)%nat →
  Tensor.cartesian_prod (seq 0 n) (seq 0 n) !! (i * n + j)%nat = Some (i, j).
Proof.
  intros Hi Hj.
  pose proof (cartesian_prod_lookup (seq 0 n) (seq 0 n) i j i j) as H.
  rewrite length_seq in H. apply H; by apply lookup_seq_lt.
Qed.

(** C2.  In every graph built from a list of dopant specifications, the
    node with number i*n + j carries the index pair (i, j), and the edge
    from the node of (i, j) to the node of (k, l) is present in
    [edge_index] exactly when the two pairs have an index in common, in
    either order.  Edges only join existing nodes, and the edge set is
    symmetric. *)
Theorem edge_iff_shared_dopant (specs : list dopant_specification) (g : data_graph) :
  get_data_graph possible_elements constraints specs = inr g →
  let n := length specs in
  (∃ rows, node_dopant_index (nodes g) = T2 rows
           ∧ ∀ i j, (i < n)%nat → (j < n)%nat → rows !! (i * n + j)%nat = Some (i, j))
  ∧ (∀ i j k l, (i < n)%nat → (j < n)%nat → (k < n)%nat → (l < n)%nat →
       ((i * n + j)%nat, (k * n + l)%nat) ∈ edges g ↔ i = k ∨ i = l ∨ j = k ∨ j = l)
  ∧ (∀ p q, (p, q) ∈ edges g → (p < num_nodes g)%nat ∧ (q < num_nodes g)%nat)
  ∧ (∀ p q, (p, q) ∈ edges g → (q, p) ∈ edges g).
Proof.
  intros H n. apply data_graph_inv in H as (_ & Hids & Hnum & Hedges).
  fold n in Hids, Hnum, Hedges.
  set (rows := Tensor.cartesian_prod (seq 0 n) (seq 0 n)) in *.
  assert (Hin : ∀ p q, (p, q) ∈ edges g ↔
                  shares (rows !!! p) (rows !!! q) = true
                  ∧ (p < n * n)%nat ∧ (q < n * n)%nat).
  { intros p q. rewrite Hedges, list_elem_of_filter, cartesian_prod_elem.
    rewrite !elem_of_seq. cbn [fst snd]. intuition lia. }
  split; [|split; [|split]].
  - exists rows. split; [done|]. intros i j Hi Hj. by apply row_major_lookup.
  - intros i j k l Hi Hj Hk Hl. rewrite Hin.
    rewrite (list_lookup_total_correct rows _ _ (row_major_lookup n i j Hi Hj)).
    rewrite (list_lookup_total_correct rows _ _ (row_major_lookup n k l Hk Hl)).
    rewrite shares_spec. split; [tauto|]. intros Hs. split; [done|]. nia.
  - intros p q Hpq. apply Hin in Hpq. rewrite Hnum. tauto.
  - intros p q Hpq. apply Hin in Hpq as (Hs & Hp & Hq). apply Hin.
    split; [by apply shares_sym|done].
Qed.

(** C4.  For an empty list of dopant specifications the node features are
    built (no node at all), but the edge construction raises: the index
    tensor [torch.tensor([])] has one dimension only, and [flip(1)] on
    line 123 fails with an [IndexError]. *)
Theorem empty_dopants_raise :
  get_node_features possible_elements constraints []
  = inr {| x_dopant := []; types := []; radii_dopant := [];
           node_dopant_index := T1 [] |}
  ∧ get_edge_features 0 (T1 []) = inl IndexError
  ∧ get_data_graph possible_elements constraints [] = inl IndexError.
Proof. done. Qed.

End GraphProperties.

(** ** The element-pair table *)

Lemma set_pair_has (m : gmap string (gmap string nat)) (a b : string) (i : nat) :
  has_type (set_pair m a b i) a b.
Proof.
  unfold set_pair, has_type. destruct (m !! a) as [inner|].
  - exists (<[b:=i]> inner), i. by rewrite !lookup_insert_eq.
  - exists {[b:=i]}, i. by rewrite lookup_insert_eq, lookup_singleton_eq.
Qed.

Lemma set_pair_keeps (m : gmap string (gmap string nat)) (a b c d : string) (i : nat) :
  has_type m a b → has_type (set_pair m c d i) a b.
Proof.
  intros (inner & t & Hm & Hi). unfold set_pair, has_type.
  destruct (decide (c = a)) as [->|Hca].
  - rewrite Hm. exists (<[d:=i]> inner). rewrite lookup_insert_eq.
    destruct (decide (d = b)) as [->|Hdb].
    + exists i. by rewrite lookup_insert_eq.
    + exists t. by rewrite lookup_insert_ne.
  - exists inner, t. destruct (m !! c); by rewrite lookup_insert_ne.
Qed.

Lemma fold_set_pair_keeps (L : list (nat * (string * string)))
    (m : gmap string (gmap string nat)) (a b : string) :
  has_type m a b →
  has_type (fold_left (fun m entry =>
                         let '(i, (el1, el2)) := entry in
                         set_pair (set_pair m el1 el2 i) el2 el1 i) L m) a b.
Proof.
  revert m. induction L as [|[i [el1 el2]] L IH]; intros m H; simpl; [done|].
  apply IH. by do 2 apply set_pair_keeps.
Qed.

Lemma fold_set_pair_has (L : list (nat * (string * string)))
    (m : gmap string (gmap string nat)) (i : nat) (a b : string) :
  (i, (a, b)) ∈ L →
  let m' := fold_left (fun m entry =>
                         let '(i, (el1, el2)) := entry in
                         set_pair (set_pair m el1 el2 i) el2 el1 i) L m in
  has_type m' a b ∧ has_type m' b a.
Proof.
  revert m. induction L as [|[i' [el1 el2]] L IH]; intros m H; [by inversion H|].
  apply elem_of_cons in H as [[= <- <- <-]|H]; simpl.
  - split; apply fold_set_pair_keeps.
    + apply set_pair_keeps, set_pair_has.
    + apply set_pair_has.
  - by apply IH.
Qed.

Lemma combinations_with_replacement2_elem {A} (l : list A) (a b : A) :
  a ∈ l → b ∈ l →
  (a, b) ∈ combinations_with_replacement2 l ∨ (b, a) ∈ combinations_with_replacement2 l.
Proof.
  induction l as [|c l IH]; intros Ha Hb; [by inversion Ha|].
  cbn [combinations_with_replacement2]. rewrite !elem_of_app.
  apply elem_of_cons in Ha as [->|Ha], Hb as [->|Hb].
  - left. left. apply list_elem_of_fmap. exists c. split; [done|]. by left.
  - left. left. apply list_elem_of_fmap. exists b. split; [done|]. by right.
  - right. left. apply list_elem_of_fmap. exists a. split; [done|]. by right.
  - destruct (IH Ha Hb); [left|right]; by right.
Qed.

Lemma enumerate_elem {A} (l : list A) (a : A) :
  a ∈ l → ∃ i, (i, a) ∈ enumerate l.
Proof.
  intros H. apply list_elem_of_lookup in H as [i Hi]. exists i.
  apply list_elem_of_lookup. exists i. unfold enumerate.
  rewrite lookup_zip_with, lookup_seq_lt by (by eapply lookup_lt_Some).
  simpl. by rewrite Hi.
Qed.

Lemma edge_type_known (els : list string) (a b : string) :
  a ∈ els → b ∈ els → ∃ t, edge_type els a b = inr t.
Proof.
  intros Ha Hb.
  assert (H : has_type (edge_type_map els) a b).
  { unfold edge_type_map.
    destruct (combinations_with_replacement2_elem els a b Ha Hb) as [H|H];
      apply enumerate_elem in H as [i H];
      by apply (fold_set_pair_has _ ∅) in H as [? ?]. }
  destruct H as (inner & t & Hm & Hi). exists t.
  unfold edge_type. by rewrite Hm, Hi.
Qed.

Lemma get_radii_valid (cs : list SphericalConstraint) (idx : Z) :
  0 ≤ idx < Z.of_nat (length cs) → ∃ r, get_radii idx cs = inr r.
Proof.
  intros H. unfold get_radii.
  assert (Hc : ∀ k : nat, (k < length cs)%nat → ∃ c, Py.index cs (Z.of_nat k) = inr c).
  { intros k Hk. destruct (lookup_lt_is_Some_2 cs k Hk) as [c Hc].
    exists c. by apply Py_index_nat. }
  destruct (Hc (Z.to_nat idx)) as [c Hidx]; [lia|].
  rewrite Z2Nat.id in Hidx by lia.
  destruct (Z.eqb_spec idx 0) as [->|Hne].
  - cbn [rbind ok]. rewrite Hidx. by eexists.
  - destruct (Hc (Z.to_nat (idx - 1))) as [c' Hidx']; [lia|].
    rewrite Z2Nat.id in Hidx' by lia.
    rewrite Hidx'. cbn [rbind ok]. rewrite Hidx. by eexists.
Qed.

Section NodeCount.

Variable possible_elements : list string.
Variable constraints : list SphericalConstraint.

Lemma node_features_total (specs : list dopant_specification) :
  (∀ d, d ∈ specs → valid_specification possible_elements constraints d) →
  ∃ nf, get_node_features possible_elements constraints specs = inr nf.
Proof.
  intros Hv. unfold get_node_features.
  match goal with
  | |- ∃ _, rbind (mapM ?F _) _ = _ =>
      destruct (mapM_total F (enumerate specs)) as [per_i ->]
  end.
  { intros [i [c [[x_i el_i] site]]] Hi.
    assert (Hd : (c, (x_i, el_i, site)) ∈ specs).
    { rewrite <- (enumerate_snd specs). apply list_elem_of_fmap.
      by exists (i, (c, (x_i, el_i, site))). }
    destruct (Hv _ Hd) as [Hc Hel]. unfold spec_shell, spec_el in *. simpl in *.
    destruct (get_radii_valid constraints c Hc) as [r_i ->]. cbn [rbind].
    apply mapM_total.
    intros [j [c' [[x_j el_j] site']]] Hj.
    assert (Hd' : (c', (x_j, el_j, site')) ∈ specs).
    { rewrite <- (enumerate_snd specs). apply list_elem_of_fmap.
      by exists (j, (c', (x_j, el_j, site'))). }
    destruct (Hv _ Hd') as [Hc' Hel']. unfold spec_shell, spec_el in *. simpl in *.
    destruct (get_radii_valid constraints c' Hc') as [r_j ->]. cbn [rbind].
    destruct (edge_type_known possible_elements el_i el_j Hel Hel') as [t ->].
    cbn [rbind]. by eexists. }
  cbn [rbind].
  destruct (mapM_total (fun d => get_radii (spec_shell d) constraints) specs)
    as [radii ->].
  { intros d Hd. destruct (Hv _ Hd) as [Hc _]. by apply get_radii_valid. }
  cbn [rbind]. by eexists.
Qed.

(** C6.  For every list of k dopant specifications, the node features
    that [get_node_features] returns hold exactly k * k dopant-pair nodes,
    the node with number i*k + j being the one of the ordered pair (i, j),
    i = j included, and every graph built from the list has k * k nodes.
    The function does return when the specifications are valid for the
    constraints and the possible elements. *)
Theorem node_count_squared (specs : list dopant_specification) :
  let k := length specs in
  (∀ nf, get_node_features possible_elements constraints specs = inr nf →
     length (types nf) = (k * k)%nat
     ∧ Tensor.size0 (node_dopant_index nf) = (k * k)%nat
     ∧ ∃ rows, node_dopant_index nf = Tensor.of_rows rows
               ∧ length rows = (k * k)%nat
               ∧ ∀ i j, (i < k)%nat → (j < k)%nat → rows !! (i * k + j)%nat = Some (i, j))
  ∧ (∀ g, get_data_graph possible_elements constraints specs = inr g →
       num_nodes g = (k * k)%nat)
  ∧ ((∀ d, d ∈ specs → valid_specification possible_elements constraints d) →
     ∃ nf, get_node_features possible_elements constraints specs = inr nf).
Proof.
  intros k.
  assert (Hnodes : ∀ nf, get_node_features possible_elements constraints specs = inr nf →
     length (types nf) = (k * k)%nat
     ∧ Tensor.size0 (node_dopant_index nf) = (k * k)%nat
     ∧ ∃ rows, node_dopant_index nf = Tensor.of_rows rows
               ∧ length rows = (k * k)%nat
               ∧ ∀ i j, (i < k)%nat → (j < k)%nat → rows !! (i * k + j)%nat = Some (i, j)).
  { intros nf Hnf.
    destruct (node_features_inv _ _ _ _ Hnf) as (Hids & Hlen & _).
    fold k in Hids, Hlen.
    set (rows := Tensor.cartesian_prod (seq 0 k) (seq 0 k)) in *.
    assert (Hrows : length rows = (k * k)%nat).
    { unfold rows. by rewrite cartesian_prod_length, !length_seq. }
    split; [done|]. split.
    - rewrite Hids. destruct rows; simpl in *; lia.
    - exists rows. split; [done|]. split; [done|].
      intros i j Hi Hj. by apply row_major_lookup. }
  split; [exact Hnodes|]. split.
  - intros g Hg. unfold get_data_graph in Hg.
    destruct (get_node_features possible_elements constraints specs) as [e|nf] eqn:Hnf;
      cbn [rbind] in Hg; [done|].
    destruct (get_edge_features _ _); cbn [rbind] in Hg; [done|].
    injection Hg as <-. unfold num_nodes. cbn [nodes].
    by destruct (Hnodes nf eq_refl) as [? _].
  - apply node_features_total.
Qed.

End NodeCount.

Lemma edge_iff_shared_dopant_witness :
  ∃ g, get_data_graph default_elements scenario_B_constraints scenario_B_dopants = inr g
       ∧ edges g = [(0, 0); (0, 1); (0, 2); (1, 0); (1, 1); (1, 2); (1, 3);
                    (2, 0); (2, 1); (2, 2); (2, 3); (3, 1); (3, 2); (3, 3)]%nat
       ∧ (∃ rows, node_dopant_index (nodes g) = T2 rows
                  ∧ ∀ i j, (i < 2)%nat → (j < 2)%nat → rows !! (i * 2 + j)%nat = Some (i, j))
       ∧ (∀ i j k l, (i < 2)%nat → (j < 2)%nat → (k < 2)%nat → (l < 2)%nat →
            ((i * 2 + j)%nat, (k * 2 + l)%nat) ∈ edges g ↔ i = k ∨ i = l ∨ j = k ∨ j = l)
       ∧ (∀ p q, (p, q) ∈ edges g → (p < num_nodes g)%nat ∧ (q < num_nodes g)%nat)
       ∧ (∀ p q, (p, q) ∈ edges g → (q, p) ∈ edges g).
Proof.
  eexists. split; [vm_compute; reflexivity|]. split; [reflexivity|].
  apply (edge_iff_shared_dopant default_elements scenario_B_constraints scenario_B_dopants).
  vm_compute. reflexivity.
Defined.

Lemma node_count_squared_witness :
  ∃ nf,
    get_node_features default_elements scenario_B_constraints scenario_B_dopants = inr nf
    ∧ length (types nf) = 4%nat
    ∧ node_dopant_index nf = T2 [(0, 0); (0, 1); (1, 0); (1, 1)]%nat
    ∧ ∀ g, get_data_graph default_elements scenario_B_constraints scenario_B_dopants = inr g →
           num_nodes g = 4%nat.
Proof.
  destruct (node_count_squared default_elements scenario_B_constraints scenario_B_dopants)
    as (Hnodes & Hgraph & Htotal).
  destruct Htotal as [nf Hnf].
  { intros d Hd. unfold scenario_B_dopants in Hd.
    apply elem_of_cons in Hd as [->|Hd]; [|apply elem_of_cons in Hd as [->|Hd]].
    - split; [simpl; lia|]. vm_compute. apply list_elem_of_here.
    - split; [simpl; lia|]. vm_compute. apply list_elem_of_further, list_elem_of_here.
    - by apply not_elem_of_nil in Hd. }
  exists nf. split; [exact Hnf|].
  destruct (Hnodes nf Hnf) as (Hlen & _ & _). split; [exact Hlen|].
  split; [|exact Hgraph].
  assert (Hc : get_node_features default_elements scenario_B_constraints scenario_B_dopants
               = inr {| x_dopant := [1 # 2; 1 # 10]%Q;
                        types := [0; 1; 1; 3]%nat;
                        radii_dopant := [(0, 5); (5, 10)]%Q;
                        node_dopant_index := T2 [(0, 0); (0, 1); (1, 0); (1, 1)]%nat |})
    by (vm_compute; reflexivity).
  rewrite Hc in Hnf. by injection Hnf as <-.
Defined.

(** ** The augmenter: grouping by shell *)

Lemma group_fold_lookup (l : list dopant_specification)
    (m : gmap Z (list dopant_tail)) (k : Z) (v : list dopant_tail) :
  m !! k = Some v →
  fold_left
    (fun (m : gmap Z (list dopant_tail)) (_tuple : dopant_specification) =>
       match m !! _tuple.1 with
       | Some specs => <[_tuple.1 := specs ++ [_tuple.2]]> m
       | None => <[_tuple.1 := [_tuple.2]]> m
       end) l m !! k
  = Some (v ++ map snd (filter (fun d : dopant_specification => d.1 = k) l)).
Proof.
  revert m v. induction l as [|d l IH]; intros m v Hm; simpl.
  - by rewrite app_nil_r.
  - rewrite filter_cons. destruct (decide (d.1 = k)) as [E|E].
    + rewrite E, Hm. erewrite IH; [|apply lookup_insert_eq].
      simpl. by rewrite <- app_assoc.
    + erewrite IH; [done|].
      destruct (m !! d.1); by rewrite lookup_insert_ne.
Qed.

Lemma group_by_layer_lookup (n i : nat) (specs : list dopant_specification) :
  (i < n)%nat → group_by_layer n specs !! Z.of_nat i = Some (specs_at i specs).
Proof.
  intros Hi. unfold group_by_layer, specs_at.
  rewrite (group_fold_lookup specs _ (Z.of_nat i) []); [done|].
  set (init := map (fun i : nat => (Z.of_nat i, [] : list dopant_tail)) (seq 0 n)).
  assert (Hin : (Z.of_nat i, [] : list dopant_tail) ∈ init).
  { apply list_elem_of_fmap. exists i. split; [done|]. apply elem_of_seq. lia. }
  destruct (list_to_map init !! Z.of_nat i) as [v|] eqn:E.
  - apply elem_of_list_to_map_2 in E. apply list_elem_of_fmap in E as (j & [= _ ->] & _).
    done.
  - apply not_elem_of_list_to_map_2 in E. exfalso. apply E.
    apply list_elem_of_fmap. by exists (Z.of_nat i, []).
Qed.

(** ** The augmenter: random draws and sorting *)

Lemma integers_bound (low high n : nat) (g g' : rng_state) :
  Random.integers low high g = inr (n, g') → (low ≤ n < high)%nat.
Proof.
  unfold Random.integers. destruct (Nat.ltb_spec low high) as [Hlt|]; [|done].
  destruct (Random.next g) as [r g1]. intros [= <- _].
  assert (Hm : (r mod (high - low) < high - low)%nat)
    by (apply Nat.mod_upper_bound; lia).
  revert Hm. generalize (r mod (high - low))%nat. intros k Hk. lia.
Qed.

Lemma draw_length {A} (size : nat) (pool : list A) (g : rng_state) :
  (length (Random.draw size pool g).1 ≤ size)%nat.
Proof.
  revert pool g. induction size as [|size IH]; intros pool g; simpl; [done|].
  set (r := tape g (pos g)). set (g1 := {| tape := tape g; pos := S (pos g) |}).
  destruct (pool !! (r mod length pool)%nat) as [a|]; simpl; [|lia].
  specialize (IH (delete (r mod length pool)%nat pool) g1).
  destruct (Random.draw size _ g1) as [rest g2]. simpl in *. lia.
Qed.

Lemma choice_length {A} (a picked : list A) (size : nat) (g g' : rng_state) :
  Random.choice a size g = inr (picked, g') → (length picked ≤ size)%nat.
Proof.
  unfold Random.choice. destruct (length a <? size)%nat; [done|].
  intros [= H]. pose proof (draw_length size a g) as Hl.
  destruct (Random.draw size a g) as [p g1]. simpl in *. by injection H as <- _.
Qed.

Lemma insert_sorted_length {A} (leb : A → A → bool) (a : A) (l : list A) :
  length (insert_sorted leb a l) = S (length l).
Proof.
  induction l as [|b l IH]; simpl; [done|].
  destruct (leb a b); simpl; by rewrite ?IH.
Qed.

Lemma sorted_length {A} (leb : A → A → bool) (l : list A) :
  length (sorted leb l) = length l.
Proof.
  unfold sorted. induction l as [|a l IH]; simpl; [done|].
  by rewrite insert_sorted_length, IH.
Qed.

(** ** The augmenter: the loop over the constraints *)

Section AugmentLoop.

Variable constraints : list SphericalConstraint.
Variable by_layer : gmap Z (list dopant_tail).
Variable layer : nat → list dopant_tail.
Hypothesis by_layer_lookup :
  ∀ i, (i < length constraints)%nat → by_layer !! Z.of_nat i = Some (layer i).

Lemma add_subdivisions (i : nat) (radii : list Q) (st : augment_state) :
  (i < length constraints)%nat →
  let st' := fold_left (add_subdivision by_layer i) radii st in
  new_constraints st'
  = new_constraints st ++ map (fun r => {| radius := Np.round1 r |}) radii
  ∧ new_dopant_specification st'
    = new_dopant_specification st
      ++ at_positions layer i (constraint_counter st) (length radii)
  ∧ constraint_counter st' = (constraint_counter st + length radii)%nat.
Proof.
  intros Hi. revert st. induction radii as [|r radii IH]; intros st; simpl.
  - unfold at_positions. simpl. by rewrite !app_nil_r, Nat.add_0_r.
  - destruct (IH (add_subdivision by_layer i st r)) as (Hc & Hs & Hn).
    rewrite Hc, Hs, Hn. unfold add_subdivision. rewrite (by_layer_lookup i Hi).
    cbn [new_constraints new_dopant_specification constraint_counter].
    unfold at_positions. simpl. rewrite <- !app_assoc. simpl.
    split; [done|]. split; [done|lia].
Qed.

Lemma augment_step_inv (sel : list nat) (ms : nat) (inc : Q) (i : nat)
    (st st' : augment_state) (g g' : rng_state) :
  (i < length constraints)%nat →
  augment_step constraints by_layer sel ms inc i st g = inr (st', g') →
  ∃ news c,
    constraints !! i = Some c
    ∧ (length news ≤ ms - 1)%nat
    ∧ new_constraints st' = new_constraints st ++ news ++ [c]
    ∧ new_dopant_specification st'
      = new_dopant_specification st
        ++ at_positions layer i (constraint_counter st) (S (length news))
    ∧ constraint_counter st' = (constraint_counter st + S (length news))%nat.
Proof.
  intros Hi. unfold augment_step.
  destruct (lookup_lt_is_Some_2 constraints i Hi) as [c Hci].
  rewrite (Py_index_nat _ _ _ Hci), (by_layer_lookup i Hi).
  assert (Hfinal : ∀ (st1 : augment_state) (g1 : rng_state) (news : list SphericalConstraint),
    new_constraints st1 = new_constraints st ++ news →
    new_dopant_specification st1
    = new_dopant_specification st ++ at_positions layer i (constraint_counter st) (length news) →
    constraint_counter st1 = (constraint_counter st + length news)%nat →
    (length news ≤ ms - 1)%nat →
    inr ({| new_constraints := new_constraints st1 ++ [c];
            new_dopant_specification :=
              new_dopant_specification st1
              ++ map (fun spec => (Z.of_nat (constraint_counter st1), spec)) (layer i);
            constraint_counter := S (constraint_counter st1) |}, g1)
    = (inr (st', g') : res (augment_state * rng_state)) →
    ∃ news c,
      constraints !! i = Some c
      ∧ (length news ≤ ms - 1)%nat
      ∧ new_constraints st' = new_constraints st ++ news ++ [c]
      ∧ new_dopant_specification st'
        = new_dopant_specification st
          ++ at_positions layer i (constraint_counter st) (S (length news))
      ∧ constraint_counter st' = (constraint_counter st + S (length news))%nat).
  { intros st1 g1 news Hc Hs Hn Hlen H. injection H as <- <-.
    exists news, c. cbn [new_constraints new_dopant_specification constraint_counter].
    rewrite Hc, Hs, Hn. unfold at_positions.
    rewrite seq_S, flat_map_app. simpl. rewrite app_nil_r, <- !app_assoc.
    repeat split; try done; lia. }
  destruct (bool_decide (i ∈ sel)).
  - match goal with
    | |- rbind (rbind ?m _) _ = _ → _ => destruct m as [e|min_radius]
    end; cbn [rbind]; [done|].
    destruct (Random.integers 1 ms g) as [e|[n_divisions g1]] eqn:Hint;
      cbn [rbind]; [done|].
    destruct (Random.choice _ n_divisions g1) as [e|[picked g2]] eqn:Hch;
      cbn [rbind ok]; [done|].
    apply integers_bound in Hint. apply choice_length in Hch.
    destruct (add_subdivisions i (sorted Qle_bool picked) st Hi) as (Hc & Hs & Hn).
    apply (Hfinal _ g2 (map (fun r => {| radius := Np.round1 r |}) (sorted Qle_bool picked)));
      rewrite ?length_map; try done.
    rewrite sorted_length. lia.
  - cbn [rbind ok]. apply (Hfinal st g []); simpl; rewrite ?app_nil_r; try done.
    lia.
Qed.

Lemma augment_loop_inv (sel : list nat) (ms : nat) (inc : Q)
    (rest : list SphericalConstraint) (i0 : nat)
    (st st' : augment_state) (g g' : rng_state) :
  drop i0 constraints = rest →
  augment_loop constraints by_layer sel ms inc (seq i0 (length rest)) st g
  = inr (st', g') →
  ∃ subs : list (list SphericalConstraint),
    length subs = length rest
    ∧ Forall (fun news => (length news ≤ ms - 1)%nat) subs
    ∧ new_constraints st' = new_constraints st ++ rebuilt_constraints subs rest
    ∧ new_dopant_specification st'
      = new_dopant_specification st
        ++ replicated layer (map length subs) i0 (constraint_counter st).
Proof.
  revert i0 st g. induction rest as [|c rest IH]; intros i0 st g Hdrop H.
  - simpl in H. injection H as <- <-. exists []. simpl.
    unfold rebuilt_constraints. simpl. by rewrite !app_nil_r.
  - assert (Hi : (i0 < length constraints)%nat).
    { destruct (decide (i0 < length constraints)%nat); [done|].
      rewrite drop_ge in Hdrop by lia. done. }
    assert (Hc : constraints !! i0 = Some c).
    { rewrite <- (Nat.add_0_r i0), <- lookup_drop. by rewrite Hdrop. }
    assert (Hdrop' : drop (S i0) constraints = rest).
    { rewrite (drop_S _ _ _ Hc) in Hdrop. by injection Hdrop. }
    cbn [length seq augment_loop] in H.
    destruct (augment_step constraints by_layer sel ms inc i0 st g)
      as [e|[st1 g1]] eqn:Hstep; cbn [rbind] in H; [done|].
    apply augment_step_inv in Hstep as (news & c' & Hc' & Hlen & Hcs & Hsp & Hn);
      [|done].
    assert (c' = c) as -> by congruence.
    destruct (IH _ _ _ Hdrop' H) as (subs & Hsl & Hall & Hcs' & Hsp').
    exists (news :: subs). split; [simpl; lia|]. split; [by constructor|].
    rewrite Hcs', Hsp', Hcs, Hsp, Hn. unfold rebuilt_constraints, at_positions.
    cbn [zip_with concat map length replicated]. rewrite <- !app_assoc.
    split; [done|]. done.
Qed.

End AugmentLoop.

(** ** The augmenter: the rebuilt template *)

Lemma rebuilt_constraints_length (subs : list (list SphericalConstraint))
    (cs : list SphericalConstraint) :
  length subs = length cs →
  length (rebuilt_constraints subs cs) = (length cs + sum_list (map length subs))%nat.
Proof.
  unfold rebuilt_constraints. revert cs.
  induction subs as [|news subs IH]; intros [|c cs] H; simpl in *; try done.
  rewrite !length_app, IH by lia. simpl. lia.
Qed.

Lemma rebuilt_constraints_lookup (subs : list (list SphericalConstraint))
    (cs : list SphericalConstraint) (i : nat) (news : list SphericalConstraint) :
  length subs = length cs →
  subs !! i = Some news →
  rebuilt_constraints subs cs
    !! (i + sum_list (take i (map length subs)) + length news)%nat
  = cs !! i.
Proof.
  unfold rebuilt_constraints. revert cs i.
  induction subs as [|news0 subs IH]; intros [|c cs] i Hlen Hi; simpl in *; try done.
  destruct i as [|i]; simpl in *.
  - injection Hi as ->. rewrite <- app_assoc, lookup_app_r by lia.
    by replace (length news - length news)%nat with 0%nat by lia.
  - rewrite lookup_app_r; rewrite length_app; simpl; [|lia].
    replace (S (i + (length news0 + sum_list (take i (map length subs))) + length news)
             - (length news0 + 1))%nat
      with (i + sum_list (take i (map length subs)) + length news)%nat by lia.
    apply IH; [lia|done].
Qed.

Section Replicated.

Variable layer : nat → list dopant_tail.

Lemma specs_at_app (p : nat) (a b : list dopant_specification) :
  specs_at p (a ++ b) = specs_at p a ++ specs_at p b.
Proof. unfold specs_at. by rewrite filter_app, map_app. Qed.

Lemma specs_at_tagged (p q : nat) (tails : list dopant_tail) :
  specs_at p (map (fun tl => (Z.of_nat q, tl)) tails)
  = if decide (p = q) then tails else [].
Proof.
  unfold specs_at. induction tails as [|tl tails IH]; simpl.
  - by destruct (decide (p = q)).
  - rewrite filter_cons. simpl. destruct (decide (p = q)) as [->|Hne].
    + rewrite decide_True by done. simpl. by rewrite IH.
    + rewrite decide_False by lia. done.
Qed.

Lemma specs_at_positions (p i start len : nat) :
  specs_at p (at_positions layer i start len)
  = if decide (start ≤ p < start + len)%nat then layer i else [].
Proof.
  unfold at_positions. revert start.
  induction len as [|len IH]; intros start; simpl.
  - destruct (decide _); [lia|done].
  - rewrite specs_at_app, specs_at_tagged, IH.
    destruct (decide (p = start)) as [->|Hne].
    + rewrite decide_False by lia. rewrite decide_True by lia. by rewrite app_nil_r.
    + simpl. repeat case_decide; try done; lia.
Qed.

Lemma specs_at_replicated_before (divs : list nat) (i0 start p : nat) :
  (p < start)%nat → specs_at p (replicated layer divs i0 start) = [].
Proof.
  revert i0 start. induction divs as [|d divs IH]; intros i0 start Hp; [done|].
  cbn [replicated]. rewrite specs_at_app, specs_at_positions.
  rewrite decide_False by lia. rewrite IH by lia. done.
Qed.

Lemma specs_at_replicated (divs : list nat) (i0 start i d t : nat) :
  divs !! i = Some d → (t ≤ d)%nat →
  specs_at (start + i + sum_list (take i divs) + t) (replicated layer divs i0 start)
  = layer (i0 + i)%nat.
Proof.
  revert i0 start i. induction divs as [|d0 divs IH]; intros i0 start i Hd Ht; [done|].
  cbn [replicated]. rewrite specs_at_app, specs_at_positions.
  destruct i as [|i]; simpl in *.
  - injection Hd as ->. rewrite decide_True by lia.
    rewrite specs_at_replicated_before by lia.
    by rewrite app_nil_r, Nat.add_0_r.
  - rewrite decide_False by lia. simpl.
    replace (start + S i + (d0 + sum_list (take i divs)) + t)%nat
      with ((start + S d0) + i + sum_list (take i divs) + t)%nat by lia.
    rewrite IH by done. f_equal. lia.
Qed.

End Replicated.

(** C9.  Every template that [generate_single_augment] returns is the
    input rebuilt around some new sub-shells [subs], at most two for each
    of the c input shells: its shell list is the input list with the new
    sub-shells of each shell put before that shell, so it has c plus the
    number of new sub-shells (the subdivisions applied) entries.  A shell
    with d new sub-shells is split into s = d + 1 sub-shells, which occupy
    s consecutive positions ending with the shell itself, and each of
    these s positions carries exactly the dopants (concentration, element
    and site) that the input assigns to the shell: every dopant
    specification of the shell appears s times, once per position. *)
Theorem augment_shell_and_dopant_counts (g g' : rng_state)
    (cs out_cs : list SphericalConstraint)
    (specs out_specs : list dopant_specification)
    (max_subdivisions : nat) (subdivision_increment : Q) :
  generate_single_augment g cs specs max_subdivisions subdivision_increment
  = inr (out_cs, out_specs, g') →
  ∃ subs : list (list SphericalConstraint),
    let divs := map length subs in
    length subs = length cs
    ∧ Forall (fun d => (d ≤ 2)%nat) divs
    ∧ out_cs = rebuilt_constraints subs cs
    ∧ length out_cs = (length cs + sum_list divs)%nat
    ∧ out_specs = replicated (fun i => specs_at i specs) divs 0 0
    ∧ ∀ i d, divs !! i = Some d →
        let start := (i + sum_list (take i divs))%nat in
        out_cs !! (start + d)%nat = cs !! i
        ∧ ∀ t, (t ≤ d)%nat → specs_at (start + t) out_specs = specs_at i specs.
Proof.
  unfold generate_single_augment. intros H.
  destruct (Random.integers 1 (length cs + 1) g) as [e|[n_to_divide g1]];
    cbn [rbind] in H; [done|].
  destruct (Random.choice (seq 0 (length cs)) n_to_divide g1) as [e|[picked g2]];
    cbn [rbind] in H; [done|].
  match type of H with
  | rbind ?m _ = _ => destruct m as [e|[st g3]] eqn:Hloop
  end; cbn [rbind ok] in H; [done|].
  injection H as <- <- <-.
  pose proof (augment_loop_inv cs (group_by_layer (length cs) specs)
                (fun i => specs_at i specs)
                (fun i Hi => group_by_layer_lookup (length cs) i specs Hi)
                (sorted Nat.leb picked) 3 (1 # 10) cs 0 _ _ _ _ eq_refl Hloop)
    as (subs & Hlen & Hall & Hcs & Hsp).
  cbn [new_constraints new_dopant_specification constraint_counter app] in Hcs, Hsp.
  exists subs. cbv zeta.
  split; [done|]. split; [by apply Forall_fmap|]. split; [done|].
  split; [rewrite Hcs; by apply rebuilt_constraints_length|]. split; [done|].
  intros i d Hd. rewrite list_lookup_fmap in Hd.
  destruct (subs !! i) as [news|] eqn:Hi; [|done]. injection Hd as <-.
  split.
  - rewrite Hcs. by apply rebuilt_constraints_lookup.
  - intros t Ht. rewrite Hsp.
    pose proof (specs_at_replicated (fun i => specs_at i specs) (map length subs)
                  0 0 i (length news) t) as Hr.
    simpl in Hr. apply Hr; [|done]. by rewrite list_lookup_fmap, Hi.
Qed.

Lemma augment_shell_and_dopant_counts_witness :
  ∃ out_cs out_specs g',
    generate_single_augment (tape_of [0; 0; 1; 20; 34]%nat)
      scenario_C_constraints scenario_C_dopants 3 (1 # 10)
    = inr (out_cs, out_specs, g')
    ∧ Forall2 Qeq (map radius out_cs) [2; 7 # 2; 5; 10]%Q
    ∧ out_specs
      = [ (0, ((1 # 2)%Q, "Yb", "Y")); (1, ((1 # 2)%Q, "Yb", "Y"));
          (2, ((1 # 2)%Q, "Yb", "Y")); (3, ((1 # 10)%Q, "Er", "Y")) ]%string
    ∧ ∃ subs : list (list SphericalConstraint),
        let divs := map length subs in
        length subs = length scenario_C_constraints
        ∧ Forall (fun d => (d ≤ 2)%nat) divs
        ∧ out_cs = rebuilt_constraints subs scenario_C_constraints
        ∧ length out_cs = (length scenario_C_constraints + sum_list divs)%nat
        ∧ out_specs = replicated (fun i => specs_at i scenario_C_dopants) divs 0 0
        ∧ ∀ i d, divs !! i = Some d →
            let start := (i + sum_list (take i divs))%nat in
            out_cs !! (start + d)%nat = scenario_C_constraints !! i
            ∧ ∀ t, (t ≤ d)%nat →
                specs_at (start + t) out_specs = specs_at i scenario_C_dopants.
Proof.
  eexists _, _, _. split; [vm_compute; reflexivity|].
  split; [by apply Torch_eqb_spec|]. split; [reflexivity|].
  eapply (augment_shell_and_dopant_counts (tape_of [0; 0; 1; 20; 34]%nat) _
            scenario_C_constraints _ scenario_C_dopants _ 3 (1 # 10)).
  vm_compute. reflexivity.
Defined.

(** C10.  The arguments given for [max_subdivisions] and
    [subdivision_increment] are overwritten by 3 and 0.1 before they are
    used: for the same generator state, all argument values give the same
    result (and leave the generator in the same state). *)
Theorem augment_ignores_parameters (g : rng_state)
    (cs : list SphericalConstraint) (specs : list dopant_specification)
    (max_subdivisions max_subdivisions' : nat)
    (subdivision_increment subdivision_increment' : Q) :
  generate_single_augment g cs specs max_subdivisions subdivision_increment
  = generate_single_augment g cs specs max_subdivisions' subdivision_increment'
  ∧ generate_single_augment g cs specs max_subdivisions subdivision_increment
    = generate_single_augment g cs specs 3 (1 # 10).
Proof. split; reflexivity. Qed.

(** The sampled radii, before rounding: every grid point lies in
    [min_radius, max_radius), the lower bound included, and the points
    chosen form a sub-multiset of the grid (no point is taken twice). *)
Lemma arange_bounds (lo hi step r : Q) :
  (0 < step)%Q → r ∈ Np.arange lo hi step → (lo <= r)%Q ∧ (r < hi)%Q.
Proof.
  intros Hstep Hr. unfold Np.arange in Hr.
  apply list_elem_of_fmap in Hr as (i & -> & Hi). apply elem_of_seq in Hi.
  assert (Hi0 : (0 <= inject_Z (Z.of_nat i))%Q).
  { change 0%Q with (inject_Z 0). rewrite <- Zle_Qle. lia. }
  split.
  - rewrite <- (Qplus_0_r lo) at 1. apply Qplus_le_r.
    apply Qmult_le_0_compat; [done|by apply Qlt_le_weak].
  - assert (Hlt : (inject_Z (Z.of_nat i) < (hi - lo) / step)%Q).
    { eapply Qle_lt_trans; [|apply Qceiling_lt].
      rewrite <- Zle_Qle. lia. }
    apply (Qmult_lt_r _ _ step Hstep) in Hlt.
    assert (Hne : ¬ (step == 0)%Q).
    { intros E. rewrite E in Hstep. by apply Qlt_irrefl in Hstep. }
    assert (E1 : ((hi - lo) / step * step == hi - lo)%Q) by (field; exact Hne).
    rewrite E1 in Hlt. apply (Qplus_lt_r _ _ lo) in Hlt.
    assert (E2 : (lo + (hi - lo) == hi)%Q) by ring.
    by rewrite E2 in Hlt.
Qed.

Lemma draw_submseteq {A} (size : nat) (pool : list A) (g : rng_state) :
  (Random.draw size pool g).1 ⊆+ pool.
Proof.
  revert pool g. induction size as [|size IH]; intros pool g; simpl.
  - apply submseteq_nil_l.
  - set (r := tape g (pos g)). set (g1 := {| tape := tape g; pos := S (pos g) |}).
    destruct (pool !! (r mod length pool)%nat) as [a|] eqn:E; simpl.
    + specialize (IH (delete (r mod length pool)%nat pool) g1).
      destruct (Random.draw size _ g1) as [rest g2]. simpl in *.
      rewrite (delete_Permutation pool _ _ E). by apply submseteq_skip.
    + apply submseteq_nil_l.
Qed.

(** C8.  The increment grid [np.arange(min_radius, max_radius, 0.1)]
    starts at the inner bound itself.  With the draws 0, 0, 0, 0 the
    innermost shell of [5, 10] is selected, one sub-radius is drawn, and it
    is the first grid point 0.0: the new sub-shell has the radius of the
    inner bound, not a radius strictly above it. *)
Theorem sub_radius_at_inner_bound :
  Np.arange 0 5 (1 # 10) !! 0%nat = Some (0 + inject_Z 0 * (1 # 10))%Q
  ∧ ∃ out_cs out_specs g',
      generate_single_augment (tape_of []) scenario_C_constraints scenario_C_dopants
                              3 (1 # 10)
      = inr (out_cs, out_specs, g')
      ∧ Forall2 Qeq (map radius out_cs) [0; 5; 10]%Q
      ∧ ∃ r, out_cs !! 0%nat = Some r ∧ ¬ (0 < radius r)%Q.
Proof.
  split; [reflexivity|].
  eexists _, _, _. split; [vm_compute; reflexivity|].
  split; [by apply Torch_eqb_spec|].
  eexists. split; [reflexivity|]. by vm_compute.
Qed.

(** * Further properties *)

(** ** Sums of tensors *)

Lemma fold_left_Qplus_acc (t : list Q) (acc : Q) :
  (fold_left Qplus t acc == acc + fold_left Qplus t 0)%Q.
Proof.
  revert acc. induction t as [|a t IH]; intros acc; simpl.
  - ring.
  - rewrite (IH (acc + a)%Q), (IH (0 + a)%Q). ring.
Qed.

Lemma Torch_sum_cons (a : Q) (t : list Q) :
  (Torch.sum (a :: t) == a + Torch.sum t)%Q.
Proof.
  unfold Torch.sum. simpl. rewrite fold_left_Qplus_acc. ring.
Qed.

Lemma Torch_sum_app (a b : list Q) :
  (Torch.sum (a ++ b) == Torch.sum a + Torch.sum b)%Q.
Proof.
  induction a as [|u a IH]; simpl.
  - unfold Torch.sum at 2. simpl. ring.
  - rewrite !Torch_sum_cons, IH. ring.
Qed.

Lemma Torch_sum_slices (t : list Q) (i : Z) :
  (Torch.sum (Py.slice_to t i) + Torch.sum (Py.slice_from t i) == Torch.sum t)%Q.
Proof.
  unfold Py.slice_to, Py.slice_from.
  rewrite <- Torch_sum_app. by rewrite take_drop.
Qed.









Lemma Py_index_last {A} (l : list A) (a : A) :
  last l = Some a → Py.index l (-1) = inr a.
Proof.
  intros H. rewrite last_lookup in H.
  pose proof (lookup_lt_Some _ _ _ H) as Hlt.
  unfold Py.index. change (-1 <? 0) with true. cbv iota.
  destruct (Z.ltb_spec (-1 + Z.of_nat (length l)) 0); [lia|].
  destruct (Z.leb_spec (Z.of_nat (length l)) (-1 + Z.of_nat (length l))); [lia|].
  simpl. replace (Z.to_nat (-1 + Z.of_nat (length l))) with (pred (length l)) by lia.
  by rewrite H.
Qed.

Lemma linspace_length (lo hi : Q) (m : nat) : length (Torch.linspace lo hi m) = m.
Proof.
  unfold Torch.linspace. destruct m as [|[|m]]; simpl; [done|done|].
  by rewrite length_map, length_seq.
Qed.

Lemma linspace_lookup (lo hi : Q) (m i : nat) :
  (2 ≤ m)%nat → (i < m)%nat →
  Torch.linspace lo hi m !! i
  = Some (lo + inject_Z (Z.of_nat i) * ((hi - lo) / inject_Z (Z.of_nat (m - 1))))%Q.
Proof.
  intros Hm Hi. unfold Torch.linspace. destruct m as [|[|m]]; [lia|lia|].
  rewrite list_lookup_fmap, lookup_seq_lt by lia. done.
Qed.

(** ** The label processor: rebinning *)

Section RebinProperties.

Variable output_size : nat.



End RebinProperties.

(** The new x axis after rebinning: [output_size] evenly spaced points
    whose first is the lower edge x[0] - step/2 and whose last is the upper
    edge x[-1] + step/2, so that neighbouring points are
    (x[-1] - x[0] + step) / (output_size - 1) apart. *)
Lemma rebin_axis (output_size : nat) (x spectrum x' s' : list Q) (step : Q) :
  (2 ≤ output_size < length x)%nat →
  rebin output_size x spectrum step = inr (x', s') →
  ∃ x0 xl,
    x !! 0%nat = Some x0 ∧ last x = Some xl
    ∧ length x' = output_size
    ∧ (∀ i, (i < output_size)%nat →
         ∃ v, x' !! i = Some v
              ∧ (v == (x0 - step / 2)
                      + inject_Z (Z.of_nat i)
                        * ((xl - x0 + step) / inject_Z (Z.of_nat (output_size - 1))))%Q)
    ∧ (∃ lo hi, x' !! 0%nat = Some lo ∧ last x' = Some hi
                ∧ (lo == x0 - step / 2)%Q ∧ (hi == xl + step / 2)%Q
                ∧ (hi - lo == xl - x0 + step)%Q).
Proof.
  intros [Hm Hn] H. unfold rebin in H.
  destruct (Nat.eqb_spec (length x) output_size) as [E|_]; [lia|]. cbn [negb] in H.
  destruct (Nat.leb_spec output_size (length x)) as [_|]; [|lia].
  destruct (Torch.reshape_rows _ _) as [e|rows]; cbn [rbind] in H; [done|].
  destruct (lookup_lt_is_Some_2 x 0) as [x0 Hx0]; [lia|].
  pose proof (Py_index_nat x 0 x0 Hx0) as H0. change (Z.of_nat 0) with 0 in H0.
  destruct (lookup_lt_is_Some_2 x (pred (length x))) as [xl El]; [lia|].
  rewrite <- last_lookup in El.
  rewrite H0, (Py_index_last _ _ El) in H. cbn [rbind ok] in H.
  injection H as <- <-.
  set (lo := (x0 - step / 2)%Q). set (hi := (xl + step / 2)%Q).
  assert (Hd : ¬ (inject_Z (Z.of_nat (output_size - 1)) == 0)%Q).
  { unfold Qeq. simpl. lia. }
  exists x0, xl. split; [done|]. split; [done|].
  split; [apply linspace_length|]. split.
  - intros i Hi. eexists. split; [by apply linspace_lookup|].
    unfold lo, hi. field. exact Hd.
  - eexists _, _. split; [by apply (linspace_lookup lo hi output_size 0); lia|].
    split.
    { rewrite last_lookup, linspace_length.
      by apply (linspace_lookup lo hi output_size (pred output_size)); lia. }
    replace (pred output_size) with (output_size - 1)%nat by lia.
    assert (Hlast : (lo + inject_Z (Z.of_nat (output_size - 1))
                          * ((hi - lo) / inject_Z (Z.of_nat (output_size - 1))) == hi)%Q)
      by (field; exact Hd).
    split; [unfold lo, hi; change (Z.of_nat 0) with 0; field; exact Hd|].
    split; [by rewrite Hlast|].
    rewrite Hlast. unfold lo, hi. field. exact Hd.
Qed.

Section LabelTotals.

Variable gaussian_filter1d : list Q → Q → list Q.
Variable spectrum_range : Q * Q.
Variable log_constant : Q.

(** The photon counts split the rebinned spectrum: emitted plus absorbed is
    its total, wherever the split index falls (also when it is negative or
    beyond the last bin); likewise for the two energies. *)
Lemma counts_partition (m : nat) (sigma : Q) (doc : document) (r : labels) :
  process_doc gaussian_filter1d spectrum_range m log_constant sigma doc = inr r →
  ∃ step x spectrum total_energy,
    get_step (energy_spectrum_x doc) = inr step
    ∧ rebin m (energy_spectrum_x doc) (energy_spectrum_y doc) step = inr (x, spectrum)
    ∧ Torch.mul spectrum x = inr total_energy
    ∧ (n_emitted r + n_absorbed r == Torch.sum spectrum)%Q
    ∧ (e_emitted r + e_absorbed r == Torch.sum total_energy)%Q.
Proof.
  unfold process_doc. intros H.
  destruct (get_step (energy_spectrum_x doc)) as [e|step] eqn:Hstep;
    cbn [rbind] in H; [done|].
  destruct (rebin m _ _ step) as [e|[x spectrum]] eqn:Hrebin;
    cbn [rbind] in H; [done|].
  destruct (get_idx_zero spectrum_range step) as [e|z] eqn:Hidx;
    cbn [rbind] in H; [done|].
  destruct (Torch.mul spectrum x) as [e|te] eqn:Hmul;
    cbn [rbind] in H; [done|].
  injection H as <-. exists step, x, spectrum, te.
  cbn [n_emitted n_absorbed e_emitted e_absorbed].
  repeat split; try done; apply Torch_sum_slices.
Qed.

(** A spectrum with fewer than two x values cannot be processed: the step
    x[1] - x[0] raises [IndexError], whatever the configuration. *)
Lemma short_spectrum_index_error (m : nat) (sigma : Q) (doc : document) :
  (length (energy_spectrum_x doc) < 2)%nat →
  process_doc gaussian_filter1d spectrum_range m log_constant sigma doc
  = inl IndexError.
Proof.
  intros H. unfold process_doc.
  by rewrite (get_step_short (energy_spectrum_x doc) H).
Qed.

End LabelTotals.


Lemma rebin_axis_witness :
  ∃ x' s',
    rebin 2 (energy_spectrum_x scenario_A) (energy_spectrum_y scenario_A) 1 = inr (x', s')
    ∧ ∃ x0 xl,
        energy_spectrum_x scenario_A !! 0%nat = Some x0
        ∧ last (energy_spectrum_x scenario_A) = Some xl
        ∧ length x' = 2%nat
        ∧ (∀ i, (i < 2)%nat →
             ∃ v, x' !! i = Some v
                  ∧ (v == (x0 - 1 / 2)
                          + inject_Z (Z.of_nat i)
                            * ((xl - x0 + 1) / inject_Z (Z.of_nat (2 - 1))))%Q)
        ∧ (∃ lo hi, x' !! 0%nat = Some lo ∧ last x' = Some hi
                    ∧ (lo == x0 - 1 / 2)%Q ∧ (hi == xl + 1 / 2)%Q
                    ∧ (hi - lo == xl - x0 + 1)%Q).
Proof.
  eexists _, _. split; [vm_compute; reflexivity|].
  eapply (rebin_axis 2 (energy_spectrum_x scenario_A) (energy_spectrum_y scenario_A)).
  - simpl. lia.
  - vm_compute. reflexivity.
Defined.

Lemma counts_partition_witness :
  ∃ r, process_doc moving_average (-1, 0)%Q 2 (1 # 1000) 1 scenario_A = inr r
       ∧ ∃ step x spectrum total_energy,
           get_step (energy_spectrum_x scenario_A) = inr step
           ∧ rebin 2 (energy_spectrum_x scenario_A) (energy_spectrum_y scenario_A) step
             = inr (x, spectrum)
           ∧ Torch.mul spectrum x = inr total_energy
           ∧ (n_emitted r + n_absorbed r == Torch.sum spectrum)%Q
           ∧ (e_emitted r + e_absorbed r == Torch.sum total_energy)%Q.
Proof.
  eexists. split; [vm_compute; reflexivity|].
  apply (counts_partition moving_average (-1, 0)%Q (1 # 1000) 2 1 scenario_A).
  vm_compute. reflexivity.
Defined.

Lemma short_spectrum_index_error_witness :
  process_doc moving_average (-1000, 0)%Q 600 (1 # 1000) 0 single_point_document
  = inl IndexError.
Proof.
  apply (short_spectrum_index_error moving_average (-1000, 0)%Q (1 # 1000) 600 0
           single_point_document).
  simpl. lia.
Defined.


(** ** Shell radii *)

(** Consecutive shells share a boundary: the outer radius of shell i is
    the inner radius of shell i + 1, and the innermost shell starts at 0. *)
Lemma get_radii_chain (cs : list SphericalConstraint) (i : nat) :
  (S i < length cs)%nat →
  ∃ a b c ci cj,
    cs !! i = Some ci ∧ cs !! S i = Some cj
    ∧ b = radius ci ∧ c = radius cj
    ∧ get_radii (Z.of_nat i) cs = inr (a, b)
    ∧ get_radii (Z.of_nat (S i)) cs = inr (b, c)
    ∧ (i = 0%nat → a = 0%Q).
Proof.
  intros Hi.
  destruct (lookup_lt_is_Some_2 cs i) as [ci Hci]; [lia|].
  destruct (lookup_lt_is_Some_2 cs (S i)) as [cj Hcj]; [lia|].
  unfold get_radii.
  rewrite (Py_index_nat _ _ _ Hci), (Py_index_nat _ _ _ Hcj).
  replace (Z.of_nat (S i) - 1) with (Z.of_nat i) by lia.
  rewrite (Py_index_nat _ _ _ Hci).
  destruct (Z.eqb_spec (Z.of_nat (S i)) 0) as [E|_]; [lia|].
  destruct (Z.eqb_spec (Z.of_nat i) 0) as [E|E].
  - cbn [rbind ok]. exists 0%Q, (radius ci), (radius cj), ci, cj. done.
  - destruct i as [|i]; [done|].
    destruct (lookup_lt_is_Some_2 cs i) as [ch Hch]; [lia|].
    replace (Z.of_nat (S i) - 1) with (Z.of_nat i) by lia.
    rewrite (Py_index_nat _ _ _ Hch). cbn [rbind ok].
    exists (radius ch), (radius ci), (radius cj), ci, cj. done.
Qed.

Lemma Py_index_error {A} (l : list A) (i : Z) (e : exn) :
  Py.index l i = inl e → e = IndexError.
Proof.
  unfold Py.index. destruct (_ || _); [by intros [= <-]|].
  destruct (l !! _); [done|by intros [= <-]].
Qed.

(** A shell index beyond the last shell raises [IndexError]; the index -1
    is accepted when there are at least two shells and names the last one. *)
Lemma get_radii_out_of_range (cs : list SphericalConstraint) (idx : Z) :
  Z.of_nat (length cs) ≤ idx →
  get_radii idx cs = inl IndexError
  ∧ ((2 ≤ length cs)%nat →
     get_radii (-1) cs = get_radii (Z.of_nat (length cs) - 1) cs
     ∧ ∃ r, get_radii (-1) cs = inr r).
Proof.
  intros Hidx. split.
  - unfold get_radii.
    assert (Herr : Py.index cs idx = inl IndexError).
    { unfold Py.index. destruct (Z.ltb_spec idx 0); [lia|].
      destruct (Z.ltb_spec idx 0); [lia|].
      destruct (Z.leb_spec (Z.of_nat (length cs)) idx); [done|lia]. }
    destruct (Z.eqb_spec idx 0).
    + cbn [rbind ok]. by rewrite Herr.
    + rewrite Herr. destruct (Py.index cs (idx - 1)) as [e|c] eqn:E; [|done].
      cbn [rbind]. by rewrite (Py_index_error _ _ _ E).
  - intros Hlen.
    assert (Hwrap : ∀ i : Z, - Z.of_nat (length cs) ≤ i < 0 →
                      Py.index cs i = Py.index cs (i + Z.of_nat (length cs))).
    { intros i Hi. unfold Py.index.
      replace (i <? 0) with true by (symmetry; apply Z.ltb_lt; lia).
      replace (i + Z.of_nat (length cs) <? 0) with false
        by (symmetry; apply Z.ltb_ge; lia).
      destruct (Z.ltb_spec (i + Z.of_nat (length cs)) 0); [lia|done]. }
    assert (E : get_radii (-1) cs = get_radii (Z.of_nat (length cs) - 1) cs).
    { unfold get_radii.
      change (-1 =? 0) with false. change (-1 - 1) with (-2).
      destruct (Z.eqb_spec (Z.of_nat (length cs) - 1) 0) as [E|_]; [lia|].
      rewrite (Hwrap (-2)), (Hwrap (-1)) by lia.
      by replace (-2 + Z.of_nat (length cs)) with (Z.of_nat (length cs) - 1 - 1) by lia;
         replace (-1 + Z.of_nat (length cs)) with (Z.of_nat (length cs) - 1) by lia. }
    split; [exact E|]. rewrite E. apply get_radii_valid. lia.
Qed.

Lemma get_radii_chain_witness :
  ∃ a b c ci cj,
    scenario_B_constraints !! 0%nat = Some ci ∧ scenario_B_constraints !! 1%nat = Some cj
    ∧ b = radius ci ∧ c = radius cj
    ∧ get_radii (Z.of_nat 0) scenario_B_constraints = inr (a, b)
    ∧ get_radii (Z.of_nat 1) scenario_B_constraints = inr (b, c)
    ∧ (0%nat = 0%nat → a = 0%Q).
Proof. apply (get_radii_chain scenario_B_constraints 0). simpl. lia. Defined.

Lemma get_radii_out_of_range_witness :
  get_radii 2 scenario_B_constraints = inl IndexError
  ∧ ((2 ≤ length scenario_B_constraints)%nat →
     get_radii (-1) scenario_B_constraints
     = get_radii (Z.of_nat (length scenario_B_constraints) - 1) scenario_B_constraints
     ∧ ∃ r, get_radii (-1) scenario_B_constraints = inr r).
Proof. apply (get_radii_out_of_range scenario_B_constraints 2). simpl. lia. Defined.

(** ** The element-pair table: symmetry and ids *)

Lemma lookup2_set_pair (m : gmap string (gmap string nat)) (a b c d : string) (i : nat) :
  lookup2 (set_pair m a b i) c d
  = if decide (c = a ∧ d = b) then Some i else lookup2 m c d.
Proof.
  unfold lookup2, set_pair.
  destruct (decide (c = a)) as [->|Hca].
  - destruct (m !! a) as [inner|] eqn:E; rewrite lookup_insert_eq.
    + destruct (decide (d = b)) as [->|Hdb].
      * rewrite lookup_insert_eq. by rewrite decide_True.
      * rewrite lookup_insert_ne by done. by rewrite decide_False by tauto.
    + destruct (decide (d = b)) as [->|Hdb].
      * rewrite lookup_singleton_eq. by rewrite decide_True.
      * rewrite lookup_singleton_ne by done. by rewrite decide_False by tauto.
  - rewrite decide_False by tauto.
    destruct (m !! a); by rewrite lookup_insert_ne.
Qed.

Lemma edge_type_lookup2 (els : list string) (a b : string) :
  edge_type els a b
  = match lookup2 (edge_type_map els) a b with
    | Some t => inr t
    | None => inl KeyError
    end.
Proof.
  unfold edge_type, lookup2. destruct (edge_type_map els !! a) as [inner|]; [|done].
  by destruct (inner !! b).
Qed.

Section PairTable.

Variable L : list (nat * (string * string)).

Lemma fold_set_pair_sym (l : list (nat * (string * string)))
    (m : gmap string (gmap string nat)) :
  (∀ a b, lookup2 m a b = lookup2 m b a) →
  ∀ a b, lookup2 (fold_left set_pair_step l m) a b = lookup2 (fold_left set_pair_step l m) b a.
Proof.
  revert m. induction l as [|[i [el1 el2]] l IH]; intros m Hm; [done|].
  simpl. apply IH. intros a b. rewrite !lookup2_set_pair, Hm.
  repeat case_decide; try done; naive_solver.
Qed.

Lemma fold_set_pair_sound (l : list (nat * (string * string)))
    (m : gmap string (gmap string nat)) :
  (∀ a b i, lookup2 m a b = Some i → (i, (a, b)) ∈ L ∨ (i, (b, a)) ∈ L) →
  (∀ entry, entry ∈ l → entry ∈ L) →
  ∀ a b i, lookup2 (fold_left set_pair_step l m) a b = Some i →
           (i, (a, b)) ∈ L ∨ (i, (b, a)) ∈ L.
Proof.
  revert m. induction l as [|[j [el1 el2]] l IH]; intros m Hm Hl; [done|].
  simpl. apply IH; [|intros entry He; apply Hl; by right].
  assert (Hj : (j, (el1, el2)) ∈ L) by (apply Hl; by left).
  intros a b i. rewrite !lookup2_set_pair.
  repeat case_decide; try (by apply Hm); intros [= <-]; naive_solver.
Qed.

End PairTable.

Lemma enumerate_lookup {A} (l : list A) (i : nat) (a : A) :
  (i, a) ∈ enumerate l ↔ l !! i = Some a.
Proof.
  unfold enumerate. rewrite list_elem_of_lookup. split.
  - intros [j Hj]. apply lookup_zip_with_Some in Hj as (i' & a' & [= <- <-] & Hs & Hl).
    apply lookup_seq in Hs as [-> _]. done.
  - intros H. exists i. rewrite lookup_zip_with, lookup_seq_lt
      by (by eapply lookup_lt_Some). simpl. by rewrite H.
Qed.

Lemma combinations_with_replacement2_from {A} (l : list A) (a b : A) :
  (a, b) ∈ combinations_with_replacement2 l → a ∈ l ∧ b ∈ l.
Proof.
  induction l as [|c l IH]; [by inversion 1|].
  cbn [combinations_with_replacement2]. rewrite elem_of_app. intros [H|H].
  - apply list_elem_of_fmap in H as (y & [= -> ->] & Hy). split; [by left|done].
  - destruct (IH H). split; by right.
Qed.

Lemma combinations_with_replacement2_length {A} (l : list A) :
  (2 * length (combinations_with_replacement2 l) = length l * (length l + 1))%nat.
Proof.
  induction l as [|c l IH]; [done|].
  cbn [combinations_with_replacement2]. rewrite length_app, length_map. simpl. lia.
Qed.

Section EdgeTypeProperties.

Variable possible_elements : list string.

Lemma edge_type_map_symmetric (a b : string) :
  lookup2 (edge_type_map possible_elements) a b
  = lookup2 (edge_type_map possible_elements) b a.
Proof. unfold edge_type_map. by rewrite (fold_set_pair_sym _ ∅). Qed.

(** The pair-type id does not depend on the order of the two elements
    (nor does the [KeyError] for an unknown element). *)
Lemma edge_type_symmetric (a b : string) :
  edge_type possible_elements a b = edge_type possible_elements b a.
Proof. by rewrite !edge_type_lookup2, edge_type_map_symmetric. Qed.

Lemma edge_type_sound (a b : string) (i : nat) :
  edge_type possible_elements a b = inr i →
  let combos := combinations_with_replacement2 possible_elements in
  combos !! i = Some (a, b) ∨ combos !! i = Some (b, a).
Proof.
  rewrite edge_type_lookup2.
  destruct (lookup2 _ a b) as [t|] eqn:E; [|done]. intros [= ->].
  unfold edge_type_map in E.
  apply (fold_set_pair_sound
           (enumerate (combinations_with_replacement2 possible_elements))) in E.
  - by rewrite !enumerate_lookup in E.
  - done.
  - done.
Qed.

(** The lookup succeeds exactly for two possible elements; for any other
    pair it raises [KeyError]. *)
Lemma edge_type_defined (a b : string) :
  (a ∈ possible_elements ∧ b ∈ possible_elements →
   ∃ t, edge_type possible_elements a b = inr t)
  ∧ (¬ (a ∈ possible_elements ∧ b ∈ possible_elements) →
     edge_type possible_elements a b = inl KeyError).
Proof.
  split.
  - intros [Ha Hb]. by apply edge_type_known.
  - intros Hn. destruct (edge_type possible_elements a b) as [e|t] eqn:E.
    + rewrite edge_type_lookup2 in E. destruct (lookup2 _ a b); [done|].
      by injection E as <-.
    + exfalso. apply Hn. apply edge_type_sound in E as [E|E];
        apply list_elem_of_lookup_2, combinations_with_replacement2_from in E; tauto.
Qed.

(** Ids identify unordered pairs: the id of (a, b) is the position of
    (a, b) or (b, a) among the combinations with replacement of the
    possible elements, so it is below n (n + 1) / 2, and two pairs with the
    same id are equal up to order. *)
Lemma edge_type_injective (a b c d : string) (i : nat) :
  edge_type possible_elements a b = inr i →
  edge_type possible_elements c d = inr i →
  ((a, b) = (c, d) ∨ (a, b) = (d, c))
  ∧ (2 * i < length possible_elements * (length possible_elements + 1))%nat.
Proof.
  intros Hab Hcd.
  apply edge_type_sound in Hab, Hcd. cbv zeta in *. split.
  - destruct Hab as [H1|H1], Hcd as [H2|H2]; rewrite H1 in H2;
      injection H2 as <- <-; auto.
  - assert (Hi : (i < length (combinations_with_replacement2 possible_elements))%nat).
    { destruct Hab as [H|H]; by apply lookup_lt_Some in H. }
    rewrite <- combinations_with_replacement2_length. lia.
Qed.

End EdgeTypeProperties.

Lemma edge_type_defined_witness :
  (∃ t, edge_type default_elements "Yb" "Er" = inr t)
  ∧ edge_type default_elements "Yb" "Tm" = inl KeyError.
Proof.
  split.
  - apply (edge_type_defined default_elements "Yb" "Er").
    split; vm_compute; [apply list_elem_of_here|apply list_elem_of_further, list_elem_of_here].
  - apply (edge_type_defined default_elements "Yb" "Tm").
    intros [_ H]. vm_compute in H.
    repeat (apply elem_of_cons in H as [H|H]; [discriminate H|]).
    by apply not_elem_of_nil in H.
Defined.

Lemma edge_type_injective_witness :
  ((("Yb", "Er") : string * string) = ("Er", "Yb") ∨ (("Yb", "Er") : string * string) = ("Yb", "Er"))
  ∧ (2 * 1 < length default_elements * (length default_elements + 1))%nat.
Proof.
  apply (edge_type_injective default_elements "Yb" "Er" "Er" "Yb" 1).
  - vm_compute. reflexivity.
  - vm_compute. reflexivity.
Defined.

(** ** The graph builder: node attributes and failures *)

Lemma mapM_inl {A B} (f : A → res B) (l : list A) (e : exn) :
  mapM f l = inl e → ∃ a, a ∈ l ∧ f a = inl e.
Proof.
  induction l as [|a l IH]; simpl; [done|].
  destruct (f a) as [e'|b] eqn:Ha; cbn [rbind].
  - intros [= ->]. exists a. split; [by left|done].
  - destruct (mapM f l) as [e'|bs]; cbn [rbind]; [|done].
    intros [= ->]. destruct IH as (a' & Ha' & Hf); [done|].
    exists a'. split; [by right|done].
Qed.

Lemma enumerate_lookup_Some {A} (l : list A) (i : nat) (a : A) :
  l !! i = Some a → enumerate l !! i = Some (i, a).
Proof.
  intros H. unfold enumerate.
  rewrite lookup_zip_with, lookup_seq_lt by (by eapply lookup_lt_Some).
  simpl. by rewrite H.
Qed.

Lemma enumerate_elem_snd {A} (l : list A) (i : nat) (a : A) :
  (i, a) ∈ enumerate l → a ∈ l.
Proof. rewrite enumerate_lookup. apply list_elem_of_lookup_2. Qed.

Lemma concat_lookup_uniform {A} (rows : list (list A)) (k i j : nat) (row : list A) :
  Forall (fun r => length r = k) rows →
  rows !! i = Some row → (j < k)%nat →
  concat rows !! (i * k + j)%nat = row !! j.
Proof.
  intros Hall. revert i. induction Hall as [|r rows Hr _ IH]; intros i Hi Hj; [done|].
  destruct i as [|i]; simpl in *.
  - injection Hi as ->. by rewrite lookup_app_l by lia.
  - rewrite lookup_app_r by lia.
    replace (k + i * k + j - length r)%nat with (i * k + j)%nat by lia.
    by apply IH.
Qed.

Lemma get_radii_error (idx : Z) (cs : list SphericalConstraint) (e : exn) :
  get_radii idx cs = inl e → e = IndexError.
Proof.
  unfold get_radii. destruct (idx =? 0); cbn [rbind ok].
  - destruct (Py.index cs idx) as [e'|c] eqn:E; cbn [rbind]; [|done].
    intros [= <-]. by eapply Py_index_error.
  - destruct (Py.index cs (idx - 1)) as [e'|c'] eqn:E'; cbn [rbind ok].
    + intros [= <-]. by eapply Py_index_error.
    + destruct (Py.index cs idx) as [e'|c] eqn:E; cbn [rbind]; [|done].
      intros [= <-]. by eapply Py_index_error.
Qed.

Section NodeAttributes.

Variable possible_elements : list string.
Variable constraints : list SphericalConstraint.

Lemma node_row_inv (specs : list dopant_specification) (i : nat)
    (d_i : dopant_specification)
    (row : list (nat * (Q * Q) * (Q * Q * (Q * Q)) * (nat * nat))) :
  (let '(i, (constraint_i, (x_i, el_i, _))) := (i, d_i) in
   let* r_i := get_radii constraint_i constraints in
   mapM (fun entry_j : nat * dopant_specification =>
           let '(j, (constraint_j, (x_j, el_j, _))) := entry_j in
           let* r_j := get_radii constraint_j constraints in
           let* ty := edge_type possible_elements el_i el_j in
           ok (ty, (x_i, x_j), (r_i, r_j), (i, j)))
        (enumerate specs)) = inr row →
  length row = length specs
  ∧ (∃ r, get_radii (spec_shell d_i) constraints = inr r)
  ∧ ∀ j d_j, specs !! j = Some d_j →
      ∃ nd, row !! j = Some nd
            ∧ edge_type possible_elements (spec_el d_i) (spec_el d_j) = inr nd.1.1.1.
Proof.
  destruct d_i as [c_i [[x_i el_i] site_i]]. unfold spec_shell, spec_el. cbn [fst snd].
  destruct (get_radii c_i constraints) as [e|r_i] eqn:Hr; cbn [rbind]; [done|].
  intros H. split; [by rewrite (mapM_length _ _ _ H), enumerate_length|].
  split; [by eexists|].
  intros j [c_j [[x_j el_j] site_j]] Hj. apply mapM_inr in H.
  destruct (Forall2_lookup_l _ _ _ _ _ H (enumerate_lookup_Some _ _ _ Hj))
    as (nd & Hnd & Hf).
  exists nd. split; [done|]. cbn [fst snd] in *.
  destruct (get_radii c_j constraints); cbn [rbind] in Hf; [done|].
  destruct (edge_type possible_elements el_i el_j); cbn [rbind] in Hf; [done|].
  by injection Hf as <-.
Qed.

Lemma node_features_entries (specs : list dopant_specification) (nf : node_features) :
  get_node_features possible_elements constraints specs = inr nf →
  let k := length specs in
  x_dopant nf = map spec_x specs
  ∧ Forall2 (fun d r => get_radii (spec_shell d) constraints = inr r)
            specs (radii_dopant nf)
  ∧ ∀ i j d_i d_j, specs !! i = Some d_i → specs !! j = Some d_j →
      ∃ t, types nf !! (i * k + j)%nat = Some t
           ∧ edge_type possible_elements (spec_el d_i) (spec_el d_j) = inr t.
Proof.
  intros H k. unfold get_node_features in H.
  match type of H with
  | rbind (mapM ?F _) _ = _ => destruct (mapM F (enumerate specs)) as [e|per_i] eqn:Hper
  end; cbn [rbind] in H; [done|].
  destruct (mapM _ specs) as [e|radii] eqn:Hrad; cbn [rbind] in H; [done|].
  injection H as <-. cbn [x_dopant radii_dopant types].
  split; [done|]. split; [by apply mapM_inr in Hrad|].
  apply mapM_inr in Hper.
  assert (Hrows : ∀ i d_i, specs !! i = Some d_i →
            ∃ row, per_i !! i = Some row ∧ length row = k
                   ∧ ∀ j d_j, specs !! j = Some d_j →
                       ∃ nd, row !! j = Some nd
                             ∧ edge_type possible_elements (spec_el d_i) (spec_el d_j)
                               = inr nd.1.1.1).
  { intros i d_i Hi.
    destruct (Forall2_lookup_l _ _ _ _ _ Hper (enumerate_lookup_Some _ _ _ Hi))
      as (row & Hrow & Hf).
    exists row. split; [done|].
    destruct (node_row_inv specs i d_i row Hf) as (Hl & _ & Hnd). by split. }
  assert (Hall : Forall (fun r => length r = k) (map (map (fun nd => nd.1.1.1)) per_i)).
  { apply Forall_fmap, Forall_forall. intros row Hrow. simpl.
    apply list_elem_of_lookup in Hrow as [i Hi].
    destruct (Forall2_lookup_r _ _ _ _ _ Hper Hi) as ([i' d_i] & Hen & Hf).
    assert (Hd : specs !! i = Some d_i).
    { apply enumerate_lookup. apply list_elem_of_lookup_2 in Hen as Hin.
      pose proof (proj1 (enumerate_lookup _ _ _) Hin) as Hl.
      pose proof (enumerate_lookup_Some _ _ _ Hl) as Hl'.
      assert (i' = i).
      { apply lookup_lt_Some in Hen as Hlt. rewrite enumerate_length in Hlt.
        destruct (lookup_lt_is_Some_2 specs i Hlt) as [d Hdd].
        rewrite (enumerate_lookup_Some _ _ _ Hdd) in Hen. by injection Hen. }
      subst. by apply list_elem_of_lookup_2 in Hen. }
    destruct (Hrows i d_i Hd) as (row' & Hrow' & Hl & _).
    rewrite length_map. congruence. }
  assert (Hty : ∀ i j d_i d_j, specs !! i = Some d_i → specs !! j = Some d_j →
            ∃ t, map (fun nd => nd.1.1.1) (concat per_i) !! (i * k + j)%nat = Some t
                 ∧ edge_type possible_elements (spec_el d_i) (spec_el d_j) = inr t).
  { intros i j d_i d_j Hi Hj.
    destruct (Hrows i d_i Hi) as (row & Hrow & Hl & Hnd).
    destruct (Hnd j d_j Hj) as (nd & Hndj & Hedge).
    exists nd.1.1.1. split; [|done].
    rewrite concat_map.
    rewrite (concat_lookup_uniform _ k i j (map (fun nd => nd.1.1.1) row) Hall).
    - by rewrite list_lookup_fmap, Hndj.
    - by rewrite list_lookup_fmap, Hrow.
    - apply lookup_lt_Some in Hj. done. }
  exact Hty.
Qed.

(** The attributes of the nodes: the per-dopant arrays follow the list of
    specifications, and the node of the pair (i, j) has the pair-type id of
    the two elements, which is also the id of the node of (j, i). *)
Lemma node_attributes (specs : list dopant_specification) (nf : node_features) :
  get_node_features possible_elements constraints specs = inr nf →
  let k := length specs in
  x_dopant nf = map spec_x specs
  ∧ Forall2 (fun d r => get_radii (spec_shell d) constraints = inr r)
            specs (radii_dopant nf)
  ∧ ∀ i j d_i d_j, specs !! i = Some d_i → specs !! j = Some d_j →
      ∃ t, types nf !! (i * k + j)%nat = Some t
           ∧ types nf !! (j * k + i)%nat = Some t
           ∧ edge_type possible_elements (spec_el d_i) (spec_el d_j) = inr t.
Proof.
  intros H k. destruct (node_features_entries specs nf H) as (Hx & Hrad & Hty).
  split; [done|]. split; [done|].
  intros i j d_i d_j Hi Hj.
  destruct (Hty i j d_i d_j Hi Hj) as (t & Ht & He).
  destruct (Hty j i d_j d_i Hj Hi) as (t' & Ht' & He').
  rewrite edge_type_lookup2, edge_type_map_symmetric, <- edge_type_lookup2, He in He'.
  injection He' as <-. by exists t.
Qed.

(** What makes [get_node_features] fail: with every shell index usable, an
    element outside the possible elements raises [KeyError]; with every
    element possible, an unusable shell index raises [IndexError]. *)
Lemma node_features_errors (specs : list dopant_specification) :
  ((∀ d, d ∈ specs → ∃ r, get_radii (spec_shell d) constraints = inr r) →
   (∃ d, d ∈ specs ∧ spec_el d ∉ possible_elements) →
   get_node_features possible_elements constraints specs = inl KeyError)
  ∧ ((∀ d, d ∈ specs → spec_el d ∈ possible_elements) →
     (∃ d, d ∈ specs ∧ ∀ r, get_radii (spec_shell d) constraints ≠ inr r) →
     get_node_features possible_elements constraints specs = inl IndexError).
Proof.
  assert (Hinr : ∀ nf, get_node_features possible_elements constraints specs = inr nf →
            ∀ d, d ∈ specs →
              (∃ r, get_radii (spec_shell d) constraints = inr r)
              ∧ spec_el d ∈ possible_elements).
  { intros nf Hnf d Hd. apply list_elem_of_lookup in Hd as [i Hi].
    destruct (node_features_entries specs nf Hnf) as (_ & Hrad & Hty).
    split.
    - destruct (Forall2_lookup_l _ _ _ _ _ Hrad Hi) as (r & _ & Hr). by exists r.
    - destruct (Hty i i d d Hi Hi) as (t & _ & He).
      apply edge_type_sound in He as [He|He];
        apply list_elem_of_lookup_2, combinations_with_replacement2_from in He; tauto. }
  assert (Hinl : ∀ e, get_node_features possible_elements constraints specs = inl e →
            (e = IndexError
             ∧ ∃ d, d ∈ specs ∧ get_radii (spec_shell d) constraints = inl IndexError)
            ∨ (e = KeyError ∧ ∃ d, d ∈ specs ∧ spec_el d ∉ possible_elements)).
  { unfold get_node_features. intros e H.
    match type of H with
    | rbind (mapM ?F _) _ = _ => destruct (mapM F (enumerate specs)) as [e'|per_i] eqn:Hper
    end; cbn [rbind] in H.
    - injection H as ->.
      apply mapM_inl in Hper as ([i [c_i [[x_i el_i] site_i]]] & Hin & Hf).
      apply enumerate_elem_snd in Hin.
      destruct (get_radii c_i constraints) as [e1|r_i] eqn:Hr; cbn [rbind] in Hf.
      { injection Hf as ->. pose proof (get_radii_error _ _ _ Hr) as ->.
        left. split; [done|]. by exists (c_i, (x_i, el_i, site_i)). }
      apply mapM_inl in Hf as ([j [c_j [[x_j el_j] site_j]]] & Hjn & Hg).
      apply enumerate_elem_snd in Hjn.
      destruct (get_radii c_j constraints) as [e1|r_j] eqn:Hrj; cbn [rbind] in Hg.
      { injection Hg as ->. pose proof (get_radii_error _ _ _ Hrj) as ->.
        left. split; [done|]. by exists (c_j, (x_j, el_j, site_j)). }
      destruct (edge_type possible_elements el_i el_j) as [e1|t] eqn:He;
        cbn [rbind] in Hg; [|done].
      injection Hg as ->. right.
      rewrite edge_type_lookup2 in He. destruct (lookup2 _ el_i el_j) eqn:El; [done|].
      injection He as <-. split; [done|].
      destruct (decide (el_i ∈ possible_elements)) as [Hi|Hi];
        [|by exists (c_i, (x_i, el_i, site_i))].
      destruct (decide (el_j ∈ possible_elements)) as [Hj|Hj];
        [|by exists (c_j, (x_j, el_j, site_j))].
      destruct (edge_type_known possible_elements el_i el_j Hi Hj) as [t Ht].
      rewrite edge_type_lookup2, El in Ht. done.
    - destruct (mapM _ specs) as [e'|radii] eqn:Hrad; cbn [rbind] in H; [|done].
      injection H as ->. apply mapM_inl in Hrad as (d & Hd & Hr).
      pose proof (get_radii_error _ _ _ Hr) as ->. left. split; [done|]. by exists d. }
  split.
  - intros Hall (d & Hd & Hel).
    destruct (get_node_features possible_elements constraints specs) as [e|nf] eqn:E.
    + destruct (Hinl e eq_refl) as [(-> & d' & Hd' & Hr)|(-> & _)]; [|done].
      destruct (Hall d' Hd') as [r Hr']. congruence.
    + destruct (Hinr nf eq_refl d Hd) as [_ ?]. done.
  - intros Hall (d & Hd & Hr).
    destruct (get_node_features possible_elements constraints specs) as [e|nf] eqn:E.
    + destruct (Hinl e eq_refl) as [(-> & _)|(-> & d' & Hd' & Hel)]; [done|].
      by specialize (Hall d' Hd').
    + destruct (Hinr nf eq_refl d Hd) as [[r Hr'] _]. by specialize (Hr r).
Qed.

End NodeAttributes.

Lemma node_attributes_witness :
  ∃ nf,
    get_node_features default_elements scenario_B_constraints scenario_B_dopants = inr nf
    ∧ types nf = [0; 1; 1; 3]%nat
    ∧ x_dopant nf = map spec_x scenario_B_dopants
    ∧ Forall2 (fun d r => get_radii (spec_shell d) scenario_B_constraints = inr r)
              scenario_B_dopants (radii_dopant nf)
    ∧ ∀ i j d_i d_j, scenario_B_dopants !! i = Some d_i → scenario_B_dopants !! j = Some d_j →
        ∃ t, types nf !! (i * 2 + j)%nat = Some t
             ∧ types nf !! (j * 2 + i)%nat = Some t
             ∧ edge_type default_elements (spec_el d_i) (spec_el d_j) = inr t.
Proof.
  eexists. split; [vm_compute; reflexivity|]. split; [reflexivity|].
  apply (node_attributes default_elements scenario_B_constraints scenario_B_dopants).
  vm_compute. reflexivity.
Defined.

Lemma node_features_errors_witness :
  get_node_features default_elements scenario_B_constraints unknown_element_dopants
  = inl KeyError
  ∧ get_node_features default_elements scenario_B_constraints missing_shell_dopants
    = inl IndexError.
Proof.
  split.
  - apply (node_features_errors default_elements scenario_B_constraints
             unknown_element_dopants).
    + intros d Hd. unfold unknown_element_dopants in Hd.
      apply elem_of_cons in Hd as [->|Hd]; [|apply elem_of_cons in Hd as [->|Hd]].
      * by eexists.
      * by eexists.
      * by apply not_elem_of_nil in Hd.
    + exists (1, ((1 # 10)%Q, "Tm", "Y"))%string. split.
      * apply list_elem_of_further, list_elem_of_here.
      * intros H. vm_compute in H.
        repeat (apply elem_of_cons in H as [H|H]; [discriminate H|]).
        by apply not_elem_of_nil in H.
  - apply (node_features_errors default_elements scenario_B_constraints
             missing_shell_dopants).
    + intros d Hd. unfold missing_shell_dopants in Hd.
      apply elem_of_cons in Hd as [->|Hd]; [|apply elem_of_cons in Hd as [->|Hd]].
      * vm_compute. apply list_elem_of_here.
      * vm_compute. apply list_elem_of_further, list_elem_of_here.
      * by apply not_elem_of_nil in Hd.
    + exists (2, ((1 # 10)%Q, "Er", "Y"))%string. split.
      * apply list_elem_of_further, list_elem_of_here.
      * intros r H. vm_compute in H. discriminate H.
Defined.

(** ** The graph builder: the edge list *)

Lemma cartesian_prod_NoDup (a b : list nat) :
  NoDup a → NoDup b → NoDup (Tensor.cartesian_prod a b).
Proof.
  intros Ha Hb. unfold Tensor.cartesian_prod.
  induction Ha as [|p a Hp Ha IH]; simpl; [constructor|].
  apply NoDup_app. split; [|split].
  - apply NoDup_fmap_2; [|done]. by intros q q' [= ->].
  - intros [p' q] H1 H2. apply list_elem_of_fmap in H1 as (q' & [= -> ->] & _).
    apply (cartesian_prod_elem a b) in H2 as [H2 _]. done.
  - exact IH.
Qed.

Section EdgeList.

Variable possible_elements : list string.
Variable constraints : list SphericalConstraint.

(** In every graph built, each directed edge is listed once, every node
    has an edge to itself, and so there are at least as many edges as
    nodes and at most one per ordered pair of nodes. *)
Lemma edge_list_shape (specs : list dopant_specification) (g : data_graph) :
  get_data_graph possible_elements constraints specs = inr g →
  NoDup (edges g)
  ∧ (∀ p, (p < num_nodes g)%nat → (p, p) ∈ edges g)
  ∧ (1 ≤ num_nodes g ≤ length (edges g))%nat
  ∧ (length (edges g) ≤ num_nodes g * num_nodes g)%nat.
Proof.
  intros H. apply data_graph_inv in H as (Hne & _ & Hnum & Hedges).
  set (n := length specs) in *.
  set (rows := Tensor.cartesian_prod (seq 0 n) (seq 0 n)) in *.
  set (all := Tensor.cartesian_prod (seq 0 (n * n)) (seq 0 (n * n))) in *.
  assert (Hnd : NoDup all) by (apply cartesian_prod_NoDup; apply NoDup_seq).
  assert (Hself : ∀ p, (p < num_nodes g)%nat → (p, p) ∈ edges g).
  { intros p Hp. rewrite Hedges. apply list_elem_of_filter. split.
    - cbn [fst snd]. destruct (rows !!! p) as [i j].
      apply shares_spec. by left.
    - apply cartesian_prod_elem. rewrite !elem_of_seq. rewrite Hnum in Hp.
      fold n. lia. }
  assert (Hn : (1 ≤ n)%nat) by (subst n; destruct specs; [done|simpl; lia]).
  split; [rewrite Hedges; by apply NoDup_filter|]. split; [exact Hself|].
  split; [split|].
  - rewrite Hnum. nia.
  - transitivity (length (map (fun p : nat => (p, p)) (seq 0 (num_nodes g))));
      [by rewrite length_map, length_seq|].
    apply submseteq_length, NoDup_submseteq.
    + apply NoDup_fmap_2; [by intros p q [= ->]|apply NoDup_seq].
    + intros [p q] Hpq. apply list_elem_of_fmap in Hpq as (p' & [= -> ->] & Hp).
      apply Hself. apply elem_of_seq in Hp. lia.
  - rewrite Hedges. etransitivity; [apply length_filter|].
    unfold all. by rewrite cartesian_prod_length, !length_seq, Hnum.
Qed.

End EdgeList.

Lemma edge_list_shape_witness :
  ∃ g, get_data_graph default_elements scenario_B_constraints scenario_B_dopants = inr g
       ∧ NoDup (edges g)
       ∧ (∀ p, (p < num_nodes g)%nat → (p, p) ∈ edges g)
       ∧ (1 ≤ num_nodes g ≤ length (edges g))%nat
       ∧ (length (edges g) ≤ num_nodes g * num_nodes g)%nat.
Proof.
  eexists. split; [vm_compute; reflexivity|].
  apply (edge_list_shape default_elements scenario_B_constraints scenario_B_dopants).
  vm_compute. reflexivity.
Defined.

(** ** The augmenter: what a run returns *)

Lemma draw_length_exact {A} (size : nat) (pool : list A) (g : rng_state) :
  (size ≤ length pool)%nat → length (Random.draw size pool g).1 = size.
Proof.
  revert pool g. induction size as [|size IH]; intros pool g Hs; simpl; [done|].
  set (r := tape g (pos g)). set (g1 := {| tape := tape g; pos := S (pos g) |}).
  assert (Hr : (r mod length pool < length pool)%nat)
    by (apply Nat.mod_upper_bound; lia).
  destruct (lookup_lt_is_Some_2 pool _ Hr) as [a Ha]. rewrite Ha.
  specialize (IH (delete (r mod length pool)%nat pool) g1).
  rewrite length_delete in IH by (by eexists).
  destruct (Random.draw size _ g1) as [rest g2]. simpl in *. rewrite IH; lia.
Qed.

Lemma choice_inv {A} (a picked : list A) (size : nat) (g g' : rng_state) :
  Random.choice a size g = inr (picked, g') →
  length picked = size ∧ picked ⊆+ a.
Proof.
  unfold Random.choice. destruct (Nat.ltb_spec (length a) size) as [|Hs]; [done|].
  intros [= H]. pose proof (draw_length_exact size a g Hs) as Hl.
  pose proof (draw_submseteq size a g) as Hsub.
  destruct (Random.draw size a g) as [p g1]. simpl in *. by injection H as <- _.
Qed.

Lemma insert_sorted_Permutation {A} (leb : A → A → bool) (a : A) (l : list A) :
  insert_sorted leb a l ≡ₚ a :: l.
Proof.
  induction l as [|b l IH]; simpl; [done|].
  destruct (leb a b); [done|]. rewrite IH. apply Permutation_swap.
Qed.

Lemma sorted_Permutation {A} (leb : A → A → bool) (l : list A) :
  sorted leb l ≡ₚ l.
Proof.
  unfold sorted. induction l as [|a l IH]; simpl; [done|].
  by rewrite insert_sorted_Permutation, IH.
Qed.

Section AugmentRun.

Variable constraints : list SphericalConstraint.
Variable by_layer : gmap Z (list dopant_tail).
Variable layer : nat → list dopant_tail.
Hypothesis by_layer_lookup :
  ∀ i, (i < length constraints)%nat → by_layer !! Z.of_nat i = Some (layer i).

Lemma inner_bound_index (i : nat) :
  (i < length constraints)%nat →
  (if (i =? 0)%nat then ok 0%Q
   else let* c := Py.index constraints (Z.of_nat i - 1) in ok (radius c))
  = inr (inner_bound constraints i).
Proof.
  intros Hi. destruct i as [|i]; [done|]. cbn [Nat.eqb inner_bound].
  destruct (lookup_lt_is_Some_2 constraints i) as [c Hc]; [lia|].
  replace (Z.of_nat (S i) - 1) with (Z.of_nat i) by lia.
  by rewrite (Py_index_nat _ _ _ Hc), Hc.
Qed.

Lemma augment_step_run (sel : list nat) (ms : nat) (inc : Q) (i : nat)
    (st st' : augment_state) (g g' : rng_state) :
  (i < length constraints)%nat →
  augment_step constraints by_layer sel ms inc i st g = inr (st', g') →
  ∃ news c,
    constraints !! i = Some c
    ∧ sub_shells_of constraints sel ms inc i news
    ∧ new_constraints st' = new_constraints st ++ news ++ [c]
    ∧ new_dopant_specification st'
      = new_dopant_specification st
        ++ at_positions layer i (constraint_counter st) (S (length news))
    ∧ constraint_counter st' = (constraint_counter st + S (length news))%nat.
Proof.
  intros Hi H.
  destruct (augment_step_inv constraints by_layer layer by_layer_lookup
              sel ms inc i st st' g g' Hi H) as (news & c & Hc & _ & Hcs & Hsp & Hn).
  exists news, c. repeat split; try done.
  unfold augment_step in H. unfold sub_shells_of.
  rewrite (inner_bound_index i Hi), (Py_index_nat _ _ _ Hc), (by_layer_lookup i Hi) in H.
  destruct (decide (i ∈ sel)) as [Hsel|Hsel].
  - rewrite bool_decide_eq_true_2 in H by done. cbn [rbind ok] in H.
    destruct (Random.integers 1 ms g) as [e|[n_divisions g1]] eqn:Hint;
      cbn [rbind] in H; [done|].
    destruct (Random.choice _ n_divisions g1) as [e|[picked g2]] eqn:Hch;
      cbn [rbind ok] in H; [done|].
    apply integers_bound in Hint. apply choice_inv in Hch as [Hl Hsub].
    exists picked, c. split; [done|]. split; [lia|]. split; [done|].
    injection H as <- _. cbn [new_constraints] in Hcs.
    destruct (add_subdivisions constraints by_layer layer by_layer_lookup i
                (sorted Qle_bool picked) st Hi) as (Hc' & _ & _).
    rewrite Hc', <- app_assoc in Hcs. apply app_inv_head in Hcs.
    apply app_inv_tail in Hcs. done.
  - rewrite bool_decide_eq_false_2 in H by done. cbn [rbind ok] in H.
    injection H as <- _. cbn [new_constraints] in Hcs.
    apply app_inv_head in Hcs. apply (f_equal length) in Hcs.
    rewrite length_app in Hcs. simpl in Hcs. destruct news; [done|simpl in Hcs; lia].
Qed.

Lemma augment_loop_run (sel : list nat) (ms : nat) (inc : Q)
    (rest : list SphericalConstraint) (i0 : nat)
    (st st' : augment_state) (g g' : rng_state) :
  drop i0 constraints = rest →
  augment_loop constraints by_layer sel ms inc (seq i0 (length rest)) st g
  = inr (st', g') →
  ∃ subs : list (list SphericalConstraint),
    Forall2 (sub_shells_of constraints sel ms inc) (seq i0 (length rest)) subs
    ∧ new_constraints st' = new_constraints st ++ rebuilt_constraints subs rest
    ∧ new_dopant_specification st'
      = new_dopant_specification st
        ++ replicated layer (map length subs) i0 (constraint_counter st).
Proof.
  revert i0 st g. induction rest as [|c rest IH]; intros i0 st g Hdrop H.
  - simpl in H. injection H as <- <-. exists []. simpl.
    unfold rebuilt_constraints. simpl. by rewrite !app_nil_r.
  - assert (Hi : (i0 < length constraints)%nat).
    { destruct (decide (i0 < length constraints)%nat); [done|].
      rewrite drop_ge in Hdrop by lia. done. }
    assert (Hc : constraints !! i0 = Some c).
    { rewrite <- (Nat.add_0_r i0), <- lookup_drop. by rewrite Hdrop. }
    assert (Hdrop' : drop (S i0) constraints = rest).
    { rewrite (drop_S _ _ _ Hc) in Hdrop. by injection Hdrop. }
    cbn [length seq augment_loop] in H.
    destruct (augment_step constraints by_layer sel ms inc i0 st g)
      as [e|[st1 g1]] eqn:Hstep; cbn [rbind] in H; [done|].
    apply augment_step_run in Hstep as (news & c' & Hc' & Hsub & Hcs & Hsp & Hn);
      [|done].
    assert (c' = c) as -> by congruence.
    destruct (IH _ _ _ Hdrop' H) as (subs & Hall & Hcs' & Hsp').
    exists (news :: subs). split; [by constructor|].
    rewrite Hcs', Hsp', Hcs, Hsp, Hn. unfold rebuilt_constraints, at_positions.
    cbn [zip_with concat map length replicated]. rewrite <- !app_assoc.
    split; [done|]. done.
Qed.

End AugmentRun.

Lemma single_augment_run (g g' : rng_state)
    (cs out_cs : list SphericalConstraint)
    (specs out_specs : list dopant_specification)
    (max_subdivisions : nat) (subdivision_increment : Q) :
  generate_single_augment g cs specs max_subdivisions subdivision_increment
  = inr (out_cs, out_specs, g') →
  ∃ (sel : list nat) (subs : list (list SphericalConstraint)),
    (∃ i, i ∈ sel ∧ (i < length cs)%nat)
    ∧ Forall2 (sub_shells_of cs sel 3 (1 # 10)) (seq 0 (length cs)) subs
    ∧ out_cs = rebuilt_constraints subs cs
    ∧ out_specs = replicated (fun i => specs_at i specs) (map length subs) 0 0.
Proof.
  unfold generate_single_augment. intros H.
  destruct (Random.integers 1 (length cs + 1) g) as [e|[n_to_divide g1]] eqn:Hint;
    cbn [rbind] in H; [done|].
  destruct (Random.choice (seq 0 (length cs)) n_to_divide g1) as [e|[picked g2]] eqn:Hch;
    cbn [rbind] in H; [done|].
  match type of H with
  | rbind ?m _ = _ => destruct m as [e|[st g3]] eqn:Hloop
  end; cbn [rbind ok] in H; [done|].
  injection H as <- <- <-.
  pose proof (augment_loop_run cs (group_by_layer (length cs) specs)
                (fun i => specs_at i specs)
                (fun i Hi => group_by_layer_lookup (length cs) i specs Hi)
                (sorted Nat.leb picked) 3 (1 # 10) cs 0 _ _ _ _ eq_refl Hloop)
    as (subs & Hall & Hcs & Hsp).
  cbn [new_constraints new_dopant_specification constraint_counter app] in Hcs, Hsp.
  exists (sorted Nat.leb picked), subs. split; [|done].
  apply integers_bound in Hint. apply choice_inv in Hch as [Hl Hsub].
  destruct picked as [|i picked]; [simpl in Hl; lia|].
  exists i. split.
  - rewrite sorted_Permutation. by left.
  - assert (Hin : i ∈ seq 0 (length cs)).
    { eapply elem_of_submseteq; [|exact Hsub]. by left. }
    apply elem_of_seq in Hin. lia.
Qed.

Lemma sub_shells_of_length (cs : list SphericalConstraint) (sel : list nat)
    (inc : Q) (i : nat) (news : list SphericalConstraint) :
  sub_shells_of cs sel 3 inc i news →
  (length news ≤ 2)%nat ∧ (i ∈ sel → (1 ≤ length news)%nat).
Proof.
  unfold sub_shells_of. destruct (decide (i ∈ sel)) as [Hi|Hi].
  - intros (picked & c & _ & Hl & _ & ->).
    rewrite length_map, sorted_length. split; [lia|]. intros _. lia.
  - intros ->. simpl. split; [lia|done].
Qed.

Lemma rebuilt_constraints_sublist (subs : list (list SphericalConstraint))
    (cs : list SphericalConstraint) :
  length subs = length cs → cs `sublist_of` rebuilt_constraints subs cs.
Proof.
  unfold rebuilt_constraints. revert cs.
  induction subs as [|news subs IH]; intros [|c cs] H; simpl in *; try done.
  rewrite <- app_assoc. apply sublist_inserts_l. simpl.
  apply sublist_skip, IH. lia.
Qed.

Lemma sum_list_bounds (subs : list (list SphericalConstraint)) (idx : list nat)
    (P : nat → list SphericalConstraint → Prop) (sel : list nat) :
  Forall2 P idx subs →
  (∀ i news, P i news → (length news ≤ 2)%nat ∧ (i ∈ sel → (1 ≤ length news)%nat)) →
  (sum_list (map length subs) ≤ 2 * length subs)%nat
  ∧ ((∃ i, i ∈ sel ∧ i ∈ idx) → (1 ≤ sum_list (map length subs))%nat).
Proof.
  intros Hall HP. induction Hall as [|i news idx subs Hi _ IH]; simpl.
  - split; [lia|]. intros (i & _ & Hi). by inversion Hi.
  - destruct (HP i news Hi) as [H2 H1]. destruct IH as [IH2 IH1]. split; [lia|].
    intros (j & Hj & Hin). apply elem_of_cons in Hin as [->|Hin].
    + specialize (H1 Hj). lia.
    + assert (1 ≤ sum_list (map length subs))%nat by (apply IH1; by exists j). lia.
Qed.

Lemma replicated_elem (layer : nat → list dopant_tail) (divs : list nat)
    (i0 start : nat) (z : Z) (tl : dopant_tail) :
  (z, tl) ∈ replicated layer divs i0 start →
  ∃ p i, z = Z.of_nat p
         ∧ (start ≤ p < start + (length divs + sum_list divs))%nat
         ∧ (i0 ≤ i < i0 + length divs)%nat
         ∧ tl ∈ layer i.
Proof.
  revert i0 start. induction divs as [|d divs IH]; intros i0 start H; [by inversion H|].
  cbn [replicated] in H. apply elem_of_app in H as [H|H].
  - unfold at_positions in H. apply list_elem_of_In, in_flat_map in H as (p & Hp & H).
    apply list_elem_of_In, list_elem_of_fmap in H as (tl' & [= -> ->] & Htl).
    apply list_elem_of_In, elem_of_seq in Hp.
    exists p, i0. simpl. repeat split; try done; lia.
  - apply IH in H as (p & i & -> & Hp & Hi & Htl).
    exists p, i. simpl. repeat split; try done; lia.
Qed.

Lemma specs_at_elem (i : nat) (specs : list dopant_specification) (tl : dopant_tail) :
  tl ∈ specs_at i specs ↔ (Z.of_nat i, tl) ∈ specs.
Proof.
  unfold specs_at. rewrite list_elem_of_fmap. split.
  - intros ([z tl'] & -> & H). apply list_elem_of_filter in H as [Hz H].
    simpl in *. by subst.
  - intros H. exists (Z.of_nat i, tl). split; [done|].
    by apply list_elem_of_filter.
Qed.

Lemma single_augment_inv (g g' : rng_state)
    (cs out_cs : list SphericalConstraint)
    (specs out_specs : list dopant_specification)
    (max_subdivisions : nat) (subdivision_increment : Q) :
  generate_single_augment g cs specs max_subdivisions subdivision_increment
  = inr (out_cs, out_specs, g') →
  (cs `sublist_of` out_cs
   ∧ (length cs + 1 ≤ length out_cs ≤ 3 * length cs)%nat)
  ∧ ∀ z tl, (z, tl) ∈ out_specs →
      0 ≤ z < Z.of_nat (length out_cs)
      ∧ ∃ i, (i < length cs)%nat ∧ (Z.of_nat i, tl) ∈ specs.
Proof.
  intros H. apply single_augment_run in H as (sel & subs & Hsel & Hall & -> & ->).
  pose proof (Forall2_length _ _ _ Hall) as Hlen. rewrite length_seq in Hlen.
  split.
  - split; [by apply rebuilt_constraints_sublist|].
    rewrite rebuilt_constraints_length by done.
    destruct (sum_list_bounds subs (seq 0 (length cs)) _ sel Hall
                (sub_shells_of_length cs sel (1 # 10))) as [H2 H1].
    assert (1 ≤ sum_list (map length subs))%nat.
    { apply H1. destruct Hsel as (i & Hi & Hlt). exists i. split; [done|].
      apply elem_of_seq. lia. }
    lia.
  - intros z tl Hin.
    apply replicated_elem in Hin as (p & i & -> & Hp & Hi & Htl).
    rewrite length_map in Hp, Hi.
    rewrite rebuilt_constraints_length by done. split; [lia|].
    exists i. split; [lia|]. by apply specs_at_elem.
Qed.

(** Every augmented template keeps the input shells, in their order, and
    adds between one and two new shells per input shell: at least one shell
    in all, at most 2 c. *)
Lemma augment_keeps_shells (g g' : rng_state)
    (cs out_cs : list SphericalConstraint)
    (specs out_specs : list dopant_specification)
    (max_subdivisions : nat) (subdivision_increment : Q) :
  generate_single_augment g cs specs max_subdivisions subdivision_increment
  = inr (out_cs, out_specs, g') →
  cs `sublist_of` out_cs
  ∧ (length cs + 1 ≤ length out_cs ≤ 3 * length cs)%nat.
Proof. intros H. exact (proj1 (single_augment_inv _ _ _ _ _ _ _ _ H)). Qed.

(** Every dopant of an augmented template sits on a shell of the new shell
    list and repeats a dopant that the input assigns to one of its shells:
    input dopants whose shell index is outside range(c) are left out. *)
Lemma augment_dopants_in_range (g g' : rng_state)
    (cs out_cs : list SphericalConstraint)
    (specs out_specs : list dopant_specification)
    (max_subdivisions : nat) (subdivision_increment : Q) :
  generate_single_augment g cs specs max_subdivisions subdivision_increment
  = inr (out_cs, out_specs, g') →
  ∀ z tl, (z, tl) ∈ out_specs →
    0 ≤ z < Z.of_nat (length out_cs)
    ∧ ∃ i, (i < length cs)%nat ∧ (Z.of_nat i, tl) ∈ specs.
Proof. intros H. exact (proj2 (single_augment_inv _ _ _ _ _ _ _ _ H)). Qed.


(** A template without shells cannot be augmented: the number of shells to
    divide is drawn from the empty range [1, 1), which raises [ValueError]. *)
Lemma augment_no_shells (g : rng_state) (specs : list dopant_specification)
    (max_subdivisions : nat) (subdivision_increment : Q) :
  generate_single_augment g [] specs max_subdivisions subdivision_increment
  = inl ValueError
  ∧ ∀ n, augment_template g [] specs (S n) = inl ValueError.
Proof. split; [reflexivity|]. intros n. reflexivity. Qed.

Lemma arange_length_thick (lo hi : Q) :
  (1 # 10 < hi - lo)%Q → (2 ≤ length (Np.arange lo hi (1 # 10)))%nat.
Proof.
  intros H. unfold Np.arange. rewrite length_map, length_seq.
  set (q := ((hi - lo) / (1 # 10))%Q).
  assert (Hq : (1 < q)%Q).
  { unfold q. apply Qlt_shift_div_l; [reflexivity|].
    by rewrite Qmult_1_l. }
  assert (Hc : 1 < Qceiling q).
  { rewrite Zlt_Qlt. eapply Qlt_le_trans; [exact Hq|apply Qle_ceiling]. }
  lia.
Qed.

Section AugmentTotal.

Variable constraints : list SphericalConstraint.
Variable by_layer : gmap Z (list dopant_tail).
Hypothesis by_layer_defined :
  ∀ i, (i < length constraints)%nat → is_Some (by_layer !! Z.of_nat i).
Hypothesis thick : thick_shells constraints.

Lemma augment_step_total (sel : list nat) (i : nat) (st : augment_state) (g : rng_state) :
  (i < length constraints)%nat →
  ∃ out, augment_step constraints by_layer sel 3 (1 # 10) i st g = inr out.
Proof.
  intros Hi. unfold augment_step.
  destruct (lookup_lt_is_Some_2 constraints i Hi) as [c Hc].
  destruct (by_layer_defined i Hi) as [specs Hspecs].
  rewrite (inner_bound_index constraints i Hi), (Py_index_nat _ _ _ Hc), Hspecs.
  destruct (bool_decide (i ∈ sel)); cbn [rbind ok]; [|by eexists].
  destruct (Random.integers 1 3 g) as [e|[n_divisions g1]] eqn:Hint.
  { unfold Random.integers in Hint. simpl in Hint. done. }
  cbn [rbind]. apply integers_bound in Hint.
  pose proof (arange_length_thick _ _ (thick i c Hc)) as Hgrid.
  unfold Random.choice.
  destruct (Nat.ltb_spec (length (Np.arange (inner_bound constraints i) (radius c) (1 # 10)))
              n_divisions); [lia|].
  cbn [rbind ok].
  destruct (Random.draw n_divisions _ g1) as [picked g2]. cbn [rbind ok]. by eexists.
Qed.

Lemma augment_loop_total (sel : list nat) (range : list nat)
    (st : augment_state) (g : rng_state) :
  Forall (fun i => (i < length constraints)%nat) range →
  ∃ out, augment_loop constraints by_layer sel 3 (1 # 10) range st g = inr out.
Proof.
  intros Hall. revert st g. induction Hall as [|i range Hi _ IH]; intros st g; simpl.
  - by eexists.
  - destruct (augment_step_total sel i st g Hi) as [[st1 g1] ->]. cbn [rbind].
    apply IH.
Qed.

End AugmentTotal.

Lemma single_augment_total (g : rng_state) (cs : list SphericalConstraint)
    (specs : list dopant_specification)
    (max_subdivisions : nat) (subdivision_increment : Q) :
  cs ≠ [] → thick_shells cs →
  ∃ out_cs out_specs g',
    generate_single_augment g cs specs max_subdivisions subdivision_increment
    = inr (out_cs, out_specs, g').
Proof.
  intros Hne Hthick. unfold generate_single_augment.
  assert (Hc : (1 ≤ length cs)%nat) by (destruct cs; [done|simpl; lia]).
  destruct (Random.integers 1 (length cs + 1) g) as [e|[n g1]] eqn:Hint.
  { unfold Random.integers in Hint.
    destruct (Nat.ltb_spec 1 (length cs + 1)); [|lia].
    by destruct (Random.next g). }
  cbn [rbind]. apply integers_bound in Hint.
  unfold Random.choice. rewrite length_seq.
  destruct (Nat.ltb_spec (length cs) n); [lia|]. cbn [rbind ok].
  destruct (Random.draw n (seq 0 (length cs)) g1) as [picked g2]. cbn [rbind].
  match goal with
  | |- ∃ _ _ _, rbind (augment_loop ?c ?b ?s _ _ ?r ?st ?gg) _ = _ =>
      destruct (augment_loop_total c b
                  (fun i Hi => ex_intro _ _ (group_by_layer_lookup (length cs) i specs Hi))
                  Hthick s r st gg) as [[st' g3] ->]
  end.
  { apply Forall_forall. intros i Hi. apply elem_of_seq in Hi. lia. }
  cbn [rbind ok]. by eexists _, _, _.
Qed.

(** [augment_template] returns [n_augments] templates when every call of
    [generate_single_augment] returns, each of them keeping the input shells,
    adding between 1 and 2 c new ones, and placing every dopant on one of
    its own shells. *)
Lemma augment_template_inv (g g' : rng_state) (cs : list SphericalConstraint)
    (specs : list dopant_specification) (n : nat)
    (templates : list (list SphericalConstraint * list dopant_specification)) :
  augment_template g cs specs n = inr (templates, g') →
  length templates = n
  ∧ Forall (fun t => cs `sublist_of` t.1
                     ∧ (length cs + 1 ≤ length t.1 ≤ 3 * length cs)%nat
                     ∧ ∀ z tl, (z, tl) ∈ t.2 →
                         0 ≤ z < Z.of_nat (length t.1)
                         ∧ ∃ i, (i < length cs)%nat ∧ (Z.of_nat i, tl) ∈ specs)
           templates.
Proof.
  revert g g' templates. induction n as [|n IH]; intros g g' templates H; simpl in H.
  - injection H as <- _. split; [done|constructor].
  - destruct (generate_single_augment g cs specs 3 (1 # 10))
      as [e|[[out_cs out_specs] g1]] eqn:Hone; cbn [rbind] in H; [done|].
    destruct (augment_template g1 cs specs n) as [e|[rest g2]] eqn:Hrest;
      cbn [rbind ok] in H; [done|].
    injection H as <- _. destruct (IH _ _ _ Hrest) as [Hl Hall].
    split; [simpl; lia|]. constructor; [|done]. cbn [fst snd].
    destruct (single_augment_inv _ _ _ _ _ _ _ _ Hone) as [[Hsub Hb] Hdop].
    split; [done|]. split; [done|]. exact Hdop.
Qed.

Lemma augment_template_returns (g : rng_state) (cs : list SphericalConstraint)
    (specs : list dopant_specification) (n : nat) :
  cs ≠ [] → thick_shells cs →
  ∃ templates g', augment_template g cs specs n = inr (templates, g')
                  ∧ length templates = n.
Proof.
  intros Hne Hthick. revert g. induction n as [|n IH]; intros g; simpl.
  - by eexists _, _.
  - destruct (single_augment_total g cs specs 3 (1 # 10) Hne Hthick)
      as (out_cs & out_specs & g1 & ->). cbn [rbind].
    destruct (IH g1) as (rest & g2 & -> & Hl). cbn [rbind ok].
    eexists _, _. split; [done|]. simpl. lia.
Qed.

(** With at least one shell, and every shell more than 0.1 thick, every
    state of the generator gives an augmented template, and
    [augment_template] gives [n_augments] of them. *)
Lemma augment_total (g : rng_state) (cs : list SphericalConstraint)
    (specs : list dopant_specification)
    (max_subdivisions : nat) (subdivision_increment : Q) (n_augments : nat) :
  cs ≠ [] → thick_shells cs →
  (∃ out_cs out_specs g',
     generate_single_augment g cs specs max_subdivisions subdivision_increment
     = inr (out_cs, out_specs, g'))
  ∧ ∃ templates g', augment_template g cs specs n_augments = inr (templates, g')
                    ∧ length templates = n_augments.
Proof.
  intros Hne Hthick. split.
  - by apply single_augment_total.
  - by apply augment_template_returns.
Qed.


Lemma scenario_C_thick : thick_shells scenario_C_constraints.
Proof.
  intros i c Hc. destruct i as [|[|i]]; simpl in Hc; [| |done]; injection Hc as <-;
    reflexivity.
Qed.

Lemma augment_keeps_shells_witness :
  ∃ out_cs out_specs g',
    generate_single_augment (tape_of [0; 0; 1; 20; 34]%nat)
      scenario_C_constraints scenario_C_dopants 3 (1 # 10)
    = inr (out_cs, out_specs, g')
    ∧ scenario_C_constraints `sublist_of` out_cs
    ∧ (length scenario_C_constraints + 1 ≤ length out_cs
       ≤ 3 * length scenario_C_constraints)%nat.
Proof.
  eexists _, _, _. split; [vm_compute; reflexivity|].
  eapply (augment_keeps_shells (tape_of [0; 0; 1; 20; 34]%nat) _
            scenario_C_constraints _ scenario_C_dopants _ 3 (1 # 10)).
  vm_compute. reflexivity.
Defined.

Lemma augment_dopants_in_range_witness :
  ∃ out_cs out_specs g',
    generate_single_augment (tape_of [0; 0; 1; 20; 34]%nat)
      scenario_C_constraints missing_shell_dopants 3 (1 # 10)
    = inr (out_cs, out_specs, g')
    ∧ length out_specs = 3%nat
    ∧ ∀ z tl, (z, tl) ∈ out_specs →
        0 ≤ z < Z.of_nat (length out_cs)
        ∧ ∃ i, (i < length scenario_C_constraints)%nat
               ∧ (Z.of_nat i, tl) ∈ missing_shell_dopants.
Proof.
  eexists _, _, _. split; [vm_compute; reflexivity|]. split; [reflexivity|].
  eapply (augment_dopants_in_range (tape_of [0; 0; 1; 20; 34]%nat) _
            scenario_C_constraints _ missing_shell_dopants _ 3 (1 # 10)).
  vm_compute. reflexivity.
Defined.


Lemma augment_total_witness :
  (∃ out_cs out_specs g',
     generate_single_augment (tape_of [7; 3; 1; 4]%nat)
       scenario_C_constraints scenario_C_dopants 3 (1 # 10)
     = inr (out_cs, out_specs, g'))
  ∧ ∃ templates g',
      augment_template (tape_of [7; 3; 1; 4]%nat) scenario_C_constraints
        scenario_C_dopants 10 = inr (templates, g')
      ∧ length templates = 10%nat.
Proof.
  apply (augment_total (tape_of [7; 3; 1; 4]%nat) scenario_C_constraints
           scenario_C_dopants 3 (1 # 10) 10).
  - discriminate.
  - exact scenario_C_thick.
Defined.

Lemma augment_template_inv_witness :
  ∃ templates g',
    augment_template (tape_of [0; 0; 1; 20; 34; 1; 0; 1; 0; 3; 1; 2; 7]%nat)
      scenario_C_constraints scenario_C_dopants 2 = inr (templates, g')
    ∧ length templates = 2%nat
    ∧ Forall (fun t => scenario_C_constraints `sublist_of` t.1
                       ∧ (length scenario_C_constraints + 1 ≤ length t.1
                          ≤ 3 * length scenario_C_constraints)%nat
                       ∧ ∀ z tl, (z, tl) ∈ t.2 →
                           0 ≤ z < Z.of_nat (length t.1)
                           ∧ ∃ i, (i < length scenario_C_constraints)%nat
                                  ∧ (Z.of_nat i, tl) ∈ scenario_C_dopants)
             templates.
Proof.
  eexists _, _. split; [vm_compute; reflexivity|].
  eapply (augment_template_inv (tape_of [0; 0; 1; 20; 34; 1; 0; 1; 0; 3; 1; 2; 7]%nat) _
            scenario_C_constraints scenario_C_dopants 2).
  vm_compute. reflexivity.
Defined.


(** ** Resolving dotted field paths *)

Lemma split_dot_nonempty (s : string) : split_dot s ≠ [].
Proof.
  induction s as [|a s IH]; simpl; [done|].
  destruct (Ascii.eqb a "."%char); [done|]. by destruct (split_dot s).
Qed.

Lemma split_dot_no_dot (s : string) : has_dot s = false → split_dot s = [s].
Proof.
  induction s as [|a s IH]; simpl; [done|].
  destruct (Ascii.eqb a "."%char); simpl; [done|]. intros H. by rewrite (IH H).
Qed.

Lemma split_dot_app (a b : string) :
  split_dot (a +:+ "." +:+ b) = split_dot a ++ split_dot b.
Proof.
  induction a as [|c a IH]; simpl; [done|].
  destruct (Ascii.eqb c "."%char); simpl; [by rewrite IH|].
  rewrite IH. destruct (split_dot a) eqn:E; [by apply split_dot_nonempty in E|done].
Qed.

Lemma walk_keys_app {A} (doc : pyobj A) (ks ks' : list string) :
  walk_keys doc (ks ++ ks')
  = match walk_keys doc ks with
    | inr v => walk_keys v ks'
    | inl e => inl e
    end.
Proof.
  revert doc. induction ks as [|k ks IH]; intros doc; simpl; [done|].
  destruct doc as [a|entries]; [done|]. destruct (entries !! k); [apply IH|done].
Qed.

(** Resolving the path p.q is resolving q in what p resolves to, and an
    exception raised on the way along p is the exception of the whole path. *)
Lemma get_item_from_doc_path {A} (doc : pyobj A) (p q : string) :
  get_item_from_doc doc (p +:+ "." +:+ q)
  = match get_item_from_doc doc p with
    | inr v => get_item_from_doc v q
    | inl e => inl e
    end.
Proof. unfold get_item_from_doc. by rewrite split_dot_app, walk_keys_app. Qed.

(** A field without a dot is one dictionary access: it raises [KeyError]
    for a missing key and [TypeError] on a value that is not a dictionary. *)
Lemma get_item_from_doc_key {A} (doc : pyobj A) (key : string) :
  has_dot key = false →
  get_item_from_doc doc key
  = match doc with
    | PyDict entries =>
        match entries !! key with
        | Some v => inr v
        | None => inl (DocKeyError key)
        end
    | PyLeaf _ => inl DocTypeError
    end.
Proof.
  intros H. unfold get_item_from_doc. rewrite (split_dot_no_dot key H). simpl.
  destruct doc as [a|entries]; [done|]. by destruct (entries !! key).
Qed.

Lemma get_item_from_doc_key_witness :
  get_item_from_doc spectrum_document "output.energy_spectrum_y" = inr (PyLeaf [1; 2; 3; 4]%Q)
  ∧ get_item_from_doc spectrum_document "input"
    = match spectrum_document with
      | PyDict entries =>
          match entries !! ("input" : string) with
          | Some v => inr v
          | None => inl (DocKeyError "input")
          end
      | PyLeaf _ => inl DocTypeError
      end
  ∧ get_item_from_doc spectrum_document "input" = inl (DocKeyError "input")
  ∧ get_item_from_doc spectrum_document "output.energy_spectrum_x.unit" = inl DocTypeError.
Proof.
  split; [vm_compute; reflexivity|]. split.
  - apply (get_item_from_doc_key spectrum_document "input"). reflexivity.
  - split; vm_compute; reflexivity.
Defined.

(** ** The item cache of a dataset *)

Lemma Py_index_position {A} (l : list A) (i : Z) :
  Py.index l i
  = match position (length l) i with
    | Some j => match l !! j with Some a => inr a | None => inl IndexError end
    | None => inl IndexError
    end.
Proof.
  unfold Py.index, position. cbv zeta.
  destruct ((_ <? 0) || (_ <=? _)); [done|]. by destruct (l !! _).
Qed.

Lemma setitem_position {A} (l : list A) (i : Z) (a : A) :
  setitem l i a
  = match position (length l) i with
    | Some j => inr (<[j := a]> l)
    | None => inl IndexError
    end.
Proof.
  unfold setitem, position. cbv zeta. by destruct ((_ <? 0) || (_ <=? _)).
Qed.

Lemma position_lt (n : nat) (i : Z) (j : nat) : position n i = Some j → (j < n)%nat.
Proof.
  unfold position. cbv zeta. destruct (Z.ltb_spec i 0).
  - destruct (Z.ltb_spec (i + Z.of_nat n) 0); simpl; [done|].
    destruct (Z.leb_spec (Z.of_nat n) (i + Z.of_nat n)); [done|].
    intros [= <-]. lia.
  - destruct (Z.ltb_spec i 0); [lia|]. simpl.
    destruct (Z.leb_spec (Z.of_nat n) i); [done|]. intros [= <-]. lia.
Qed.

Lemma position_nat (n j : nat) : (j < n)%nat → position n (Z.of_nat j) = Some j.
Proof.
  intros H. unfold position. cbv zeta.
  assert (E1 : (Z.of_nat j <? 0) = false) by (apply Z.ltb_ge; lia).
  assert (E2 : (Z.of_nat n <=? Z.of_nat j) = false) by (apply Z.leb_gt; lia).
  rewrite !E1, E2. simpl. by rewrite Nat2Z.id.
Qed.

Section DatasetCache.

Context {A : Type}.
Variable feature_process_doc : pyobj A → item_exn + data A.
Variable label_process_doc : pyobj A → item_exn + data A.
Variable docs : list (pyobj A).

Notation process := (process_single_doc feature_process_doc label_process_doc docs).
Notation get := (getitem feature_process_doc label_process_doc docs).
Notation consistent := (cache_consistent feature_process_doc label_process_doc docs).

Lemma process_single_doc_position (idx : Z) (j : nat) :
  position (length docs) idx = Some j → process idx = process (Z.of_nat j).
Proof.
  intros H. unfold process_single_doc.
  rewrite !Py_index_position, H, (position_nat _ _ (position_lt _ _ _ H)). done.
Qed.

Lemma process_single_doc_out_of_range (idx : Z) :
  position (length docs) idx = None → process idx = inl (Raised IndexError).
Proof. intros H. unfold process_single_doc. by rewrite Py_index_position, H. Qed.

Lemma getitem_cached (st : dataset_cache A) (idx : Z) (p : nat) :
  length (cached_data st) = length docs →
  length (item_cache st) = length docs →
  position (length docs) idx = Some p →
  get true st idx
  = match cached_data st !! p with
    | Some true =>
        match item_cache st !! p with
        | Some d => (inr d, st)
        | None => (inl (Raised IndexError), st)
        end
    | Some false =>
        match process idx with
        | inl e => (inl e, st)
        | inr d => (inr (Some d), {| cached_data := <[p := true]> (cached_data st);
                                     item_cache := <[p := Some d]> (item_cache st) |})
        end
    | None => (inl (Raised IndexError), st)
    end.
Proof.
  intros Hc Hi Hp. unfold getitem. rewrite !Py_index_position, Hc, Hi, Hp.
  destruct (cached_data st !! p) as [[|]|]; [|  |done].
  - by destruct (item_cache st !! p).
  - destruct (process idx) as [e|d]; [done|].
    by rewrite !setitem_position, Hc, Hi, Hp.
Qed.

Lemma getitem_out_of_range (st : dataset_cache A) (idx : Z) :
  length (cached_data st) = length docs →
  position (length docs) idx = None →
  get true st idx = (inl (Raised IndexError), st).
Proof.
  intros Hc Hp. unfold getitem. by rewrite Py_index_position, Hc, Hp.
Qed.

Lemma new_cache_consistent : consistent (new_cache docs).
Proof.
  unfold cache_consistent, new_cache. simpl. rewrite !length_map.
  split; [done|]. split; [done|]. intros j Hj.
  rewrite list_lookup_fmap in Hj. by destruct (docs !! j).
Qed.

Lemma getitem_consistent (st : dataset_cache A) (idx : Z) :
  consistent st → consistent (get true st idx).2.
Proof.
  intros (Hc & Hi & Hinv). unfold getitem.
  rewrite !Py_index_position, !setitem_position, Hc, Hi.
  destruct (position (length docs) idx) as [p|] eqn:Hp; [|done].
  destruct (cached_data st !! p) as [[|]|] eqn:Hcp; [| |done].
  - by destruct (item_cache st !! p).
  - destruct (process idx) as [e|d] eqn:Hd; [done|].
    rewrite setitem_position, Hi, Hp. unfold cache_consistent. simpl.
    split; [by rewrite length_insert|]. split; [by rewrite length_insert|].
    intros j Hj. destruct (decide (j = p)) as [->|Hne].
    + exists d. split.
      * apply list_lookup_insert_eq. rewrite Hi. by eapply position_lt.
      * by rewrite <- (process_single_doc_position idx p Hp).
    + rewrite list_lookup_insert_ne in Hj by done.
      rewrite list_lookup_insert_ne by done. by apply Hinv.
Qed.

Lemma reachable_consistent (st : dataset_cache A) :
  reachable feature_process_doc label_process_doc docs st → consistent st.
Proof.
  induction 1 as [|st idx _ IH]; [apply new_cache_consistent|].
  by apply getitem_consistent.
Qed.

Lemma consistent_transparent (st : dataset_cache A) (idx : Z) :
  consistent st → (get true st idx).1 = (get false st idx).1.
Proof.
  intros (Hc & Hi & Hinv). unfold getitem.
  rewrite !Py_index_position, !setitem_position, Hc, Hi.
  destruct (position (length docs) idx) as [p|] eqn:Hp.
  - pose proof (position_lt _ _ _ Hp) as Hlt.
    destruct (cached_data st !! p) as [[|]|] eqn:Hcp.
    + destruct (Hinv p Hcp) as (d & -> & Hd).
      by rewrite (process_single_doc_position idx p Hp), Hd.
    + destruct (process idx) as [e|d]; [done|].
      by rewrite setitem_position, Hi, Hp.
    + apply lookup_ge_None in Hcp. lia.
  - by rewrite (process_single_doc_out_of_range idx Hp).
Qed.

(** A dataset that uses its cache returns and raises what one without a
    cache does, whatever was asked of it before, and it keeps no item but
    the data point of its document. *)
Lemma cache_transparent (st : dataset_cache A) (idx : Z) :
  reachable feature_process_doc label_process_doc docs st →
  (get true st idx).1 = (get false st idx).1
  ∧ ∀ j, cached_data st !! j = Some true →
      ∃ d, item_cache st !! j = Some (Some d) ∧ process (Z.of_nat j) = inr d.
Proof.
  intros H. apply reachable_consistent in H. split.
  - by apply consistent_transparent.
  - by destruct H as (_ & _ & ?).
Qed.

(** Every call that raises, for an index out of range as for a document
    that cannot be processed, leaves the cache as it is.  A call that
    returns an item marks the slot of its index, and asking for that slot
    again, by the same index or by the index counted from the other end,
    returns the same item and leaves the cache as it is. *)
Lemma cache_hit (st : dataset_cache A) (idx : Z) :
  reachable feature_process_doc label_process_doc docs st →
  let st1 := (get true st idx).2 in
  match (get true st idx).1 with
  | inr d =>
      ∃ p, position (length docs) idx = Some p
           ∧ cached_data st1 !! p = Some true
           ∧ ∀ idx', position (length docs) idx' = Some p →
               get true st1 idx' = (inr d, st1)
  | inl e => st1 = st
  end.
Proof.
  intros H. apply reachable_consistent in H. destruct H as (Hc & Hi & Hinv).
  cbv zeta. destruct (position (length docs) idx) as [p|] eqn:Hp.
  - pose proof (position_lt _ _ _ Hp) as Hlt.
    rewrite (getitem_cached st idx p Hc Hi Hp).
    destruct (cached_data st !! p) as [[|]|] eqn:Hcp.
    + destruct (Hinv p Hcp) as (d & Hd & _). rewrite Hd. cbn [fst snd].
      exists p. split; [done|]. split; [done|]. intros idx' Hp'.
      by rewrite (getitem_cached st idx' p Hc Hi Hp'), Hcp, Hd.
    + destruct (process idx) as [e|d]; [done|]. cbn [fst snd cached_data].
      exists p. split; [done|]. split; [apply list_lookup_insert_eq; lia|].
      intros idx' Hp'.
      rewrite (getitem_cached _ idx' p); simpl; rewrite ?length_insert; try done.
      by rewrite !list_lookup_insert_eq by lia.
    + done.
  - by rewrite (getitem_out_of_range st idx Hc Hp).
Qed.

End DatasetCache.

Lemma cache_transparent_witness :
  let st := (getitem no_features spectrum_labels three_documents true
               (new_cache three_documents) (-1)).2 in
  (getitem no_features spectrum_labels three_documents true st 2).1
  = (getitem no_features spectrum_labels three_documents false st 2).1
  ∧ ∀ j, cached_data st !! j = Some true →
      ∃ d, item_cache st !! j = Some (Some d)
           ∧ process_single_doc no_features spectrum_labels three_documents (Z.of_nat j)
             = inr d.
Proof.
  apply (cache_transparent no_features spectrum_labels three_documents).
  apply reachable_getitem, reachable_new.
Defined.

Lemma cache_hit_witness :
  (let st := new_cache three_documents in
   let st1 := (getitem no_features spectrum_labels three_documents true st 2).2 in
   match (getitem no_features spectrum_labels three_documents true st 2).1 with
   | inr d =>
       ∃ p, position (length three_documents) 2 = Some p
            ∧ cached_data st1 !! p = Some true
            ∧ ∀ idx', position (length three_documents) idx' = Some p →
                getitem no_features spectrum_labels three_documents true st1 idx'
                = (inr d, st1)
   | inl e => st1 = st
   end)
  ∧ (getitem no_features spectrum_labels three_documents true
       (new_cache three_documents) 2).1
    = inr (Some {[ "y" := PyLeaf [2; 3]%Q;
                   "constraints" := PyLeaf [10%Q];
                   "dopant_specifications" := PyLeaf [(1 # 2)%Q] ]})
  ∧ (let st := new_cache three_documents in
     let st1 := (getitem no_features spectrum_labels three_documents true st 3).2 in
     match (getitem no_features spectrum_labels three_documents true st 3).1 with
     | inr d =>
         ∃ p, position (length three_documents) 3 = Some p
              ∧ cached_data st1 !! p = Some true
              ∧ ∀ idx', position (length three_documents) idx' = Some p →
                  getitem no_features spectrum_labels three_documents true st1 idx'
                  = (inr d, st1)
     | inl e => st1 = st
     end)
  ∧ (getitem no_features spectrum_labels three_documents true
       (new_cache three_documents) 3).1 = inl (Raised IndexError)
  ∧ (getitem no_features spectrum_labels three_documents true
       (new_cache three_documents) 1).1 = inl (RaisedDoc (DocKeyError "input")).
Proof.
  split.
  { apply (cache_hit no_features spectrum_labels three_documents
             (new_cache three_documents) 2).
    apply reachable_new. }
  split; [vm_compute; reflexivity|].
  split.
  { apply (cache_hit no_features spectrum_labels three_documents
             (new_cache three_documents) 3).
    apply reachable_new. }
  split; vm_compute; reflexivity.
Defined.
